(** * fix_params.py: the Next.js 15 route-parameter rewriter

    A shallow embedding of [src/fix_params.py] and the verification of its
    specification.  The script reads a route file, injects a [RouteParams]
    interface, normalises the handler signature, inserts an
    [await params] extraction after the first [try {] of each handler and
    rewrites [params.<name>] references.

    A Python [str] is a sequence of Unicode code points: a text is a list of
    [N].  The regular expressions of the script are built from literals and
    [\s*] only; they are embedded as token lists and run by a backtracking
    matcher with Python's priorities (greedy first). *)

From Stdlib Require Import String Ascii.
From Stdlib Require Import List NArith ZArith Bool Lia Arith.
Import ListNotations.

(* ================================================================= *)
(** ** Characters and texts *)

Definition char := N.
Definition text := list char.

(** A literal of the script, as code points. *)
Definition str (s : string) : text := map N_of_ascii (list_ascii_of_string s).

Definition NL : char := 10%N.
Definition SP : char := 32%N.

(** [str.isspace] on one code point, which is also the class [\s] of [re] on
    [str] patterns (both are [Py_UNICODE_ISSPACE]). *)
Definition isspace (c : char) : bool :=
  (((9 <=? c) && (c <=? 13)) || ((28 <=? c) && (c <=? 32))
   || (c =? 133) || (c =? 160) || (c =? 5760)
   || ((8192 <=? c) && (c <=? 8202))
   || (c =? 8232) || (c =? 8233) || (c =? 8239) || (c =? 8287)
   || (c =? 12288))%N.

(** The characters of a parameter name: the spec's ParamSpec carries a
    "string identifier".  On these the interpolation of the name into a
    pattern ([rf'...{param_name}...']) and into a replacement template is
    literal. *)
Definition ident_char (c : char) : bool :=
  (((48 <=? c) && (c <=? 57)) || ((65 <=? c) && (c <=? 90))
   || (c =? 95) || ((97 <=? c) && (c <=? 122)))%N.

Definition identifier (name : text) : bool := forallb ident_char name.

(* ================================================================= *)
(** ** The [str] methods the script uses *)

Module Py.

(** [s.startswith(sub)] *)
Fixpoint startswith (sub s : text) : bool :=
  match sub, s with
  | [], _ => true
  | _ :: _, [] => false
  | a :: sub', b :: s' => (a =? b)%N && startswith sub' s'
  end.

(** [sub in s] *)
Fixpoint contains (sub s : text) : bool :=
  startswith sub s ||
  match s with
  | [] => false
  | _ :: s' => contains sub s'
  end.

(** lowest index [>= i] of [sub] in [s] (whose first character has index
    [i]), or [-1] *)
Fixpoint find_from (sub s : text) (i : Z) : Z :=
  if startswith sub s then i
  else match s with
       | [] => (-1)%Z
       | _ :: s' => find_from sub s' (i + 1)%Z
       end.

(** [s.find(sub)] *)
Definition find (sub s : text) : Z := find_from sub s 0%Z.

(** highest index of [sub] in [s] (whose first character has index [i]),
    or [-1] *)
Fixpoint rfind_from (sub s : text) (i : Z) : Z :=
  match s with
  | [] => if startswith sub s then i else (-1)%Z
  | _ :: s' =>
      let r := rfind_from sub s' (i + 1)%Z in
      if (0 <=? r)%Z then r
      else if startswith sub s then i else (-1)%Z
  end.

(** Python's adjustment of a slice bound to a sequence of length [len] *)
Definition clamp (i len : Z) : Z :=
  if (i <? 0)%Z then Z.max 0 (i + len) else Z.min i len.

(** [s[a:b]] *)
Definition slice (s : text) (a b : Z) : text :=
  let len := Z.of_nat (length s) in
  let a' := Z.to_nat (clamp a len) in
  let b' := Z.to_nat (clamp b len) in
  firstn (b' - a') (skipn a' s).

(** [s[:b]] and [s[a:]] *)
Definition slice_to (s : text) (b : Z) : text :=
  firstn (Z.to_nat (clamp b (Z.of_nat (length s)))) s.
Definition slice_from (s : text) (a : Z) : text :=
  skipn (Z.to_nat (clamp a (Z.of_nat (length s)))) s.

(** [s.rfind(sub, a, b)]: the search is in [s[a:b]], the index is in [s] *)
Definition rfind (sub s : text) (a b : Z) : Z :=
  let len := Z.of_nat (length s) in
  let a' := clamp a len in
  let b' := clamp b len in
  if (b' <? a')%Z then (-1)%Z
  else rfind_from sub (slice s a b) a'.

(** [s.split('\n')] *)
Fixpoint split_nl (s : text) : list text :=
  match s with
  | [] => [[]]
  | c :: s' =>
      if (c =? NL)%N then [] :: split_nl s'
      else match split_nl s' with
           | l :: ls => (c :: l) :: ls
           | [] => [[c]]
           end
  end.

(** ['\n'.join(ls)] *)
Fixpoint join_nl (ls : list text) : text :=
  match ls with
  | [] => []
  | l :: ls' =>
      match ls' with
      | [] => l
      | _ :: _ => l ++ NL :: join_nl ls'
      end
  end.

(** [s.lstrip()] *)
Fixpoint lstrip (s : text) : text :=
  match s with
  | [] => []
  | c :: s' => if isspace c then lstrip s' else s
  end.

(** [' ' * n] *)
Definition spaces (n : nat) : text := repeat SP n.

End Py.

(* ================================================================= *)
(** ** The regular expressions of the script *)

Module Re.

(** The two patterns are sequences of literals and [\s*]. *)
Inductive tok :=
| Lit (l : text)
| Spaces.

Definition regex := list tok.

(** [match_at p s] is the length of the match of [p] at the head of [s], with
    the priorities of a backtracking matcher: [\s*] is greedy, it first takes
    one more white space and gives it back when the rest fails. *)
Fixpoint match_at (p : regex) : text -> option nat :=
  match p with
  | [] => fun _ => Some 0
  | Lit l :: p' => fun s =>
      if Py.startswith l s
      then option_map (Nat.add (length l)) (match_at p' (skipn (length l) s))
      else None
  | Spaces :: p' =>
      fix spaces (s : text) : option nat :=
        match s with
        | c :: s' =>
            if isspace c
            then match spaces s' with
                 | Some n => Some (S n)
                 | None => match_at p' s
                 end
            else match_at p' s
        | [] => match_at p' s
        end
  end.

(** [re.sub(p, repl, s)] for a pattern that matches no empty string (both
    patterns of the script start with a literal) and a replacement template
    without escapes: scan from the left; at a match emit [repl] and resume
    after the match, else emit the character.  [skip] counts the characters
    of the current match still to be passed over. *)
Fixpoint sub_from (p : regex) (repl : text) (skip : nat) (s : text) : text :=
  match s with
  | [] => []
  | c :: s' =>
      match skip with
      | S k => sub_from p repl k s'
      | O =>
          match match_at p s with
          | Some (S n) => repl ++ sub_from p repl n s'
          | _ => c :: sub_from p repl 0 s'
          end
      end
  end.

Definition sub (p : regex) (repl s : text) : text := sub_from p repl 0 s.

End Re.

Import Re.

(* ================================================================= *)
(** ** fix_route_file: the transformer *)

(** The text the guard looks for, as the block has it: at the start of a
    line. *)
Definition guard_text : text := str "interface RouteParams".
Definition guard_line : text := NL :: guard_text.

(** ['interface RouteParams' in content] *)
Definition guard (content : text) : bool :=
  Py.contains guard_text content.

(** [import_section_end] *)
Definition import_section_end (content : text) : Z :=
  let r := Py.rfind [NL] content 0 (Py.find [NL; NL] content) in
  if (r =? -1)%Z then Py.find [NL; NL] content else r.

(** The f-string [interface_code]: the text before the interpolated name,
    the name, the text after it. *)
Definition interface_head : text :=
  NL :: str "interface RouteParams {" ++
  NL :: str "  params: Promise<{" ++
  NL :: str "    ".

Definition interface_tail : text :=
  str ": string" ++
  NL :: str "  }>" ++
  NL :: str "}" ++
  [NL].

Definition interface_code (param_name : text) : text :=
  interface_head ++ param_name ++ interface_tail.

(** Step 1: [content[:import_section_end + 1] + interface_code +
    content[import_section_end + 1:]] *)
Definition add_interface (param_name content : text) : text :=
  let e := import_section_end content in
  Py.slice_to content (e + 1) ++ interface_code param_name
    ++ Py.slice_from content (e + 1).

(** [\{\s*params\s*\}:\s*\{\s*params:\s*\{\s*<name>:\s*string\s*\}\s*\}],
    for an identifier name: the interpolated name is then literal pattern
    text. *)
Definition signature_pattern (param_name : text) : regex :=
  [ Lit (str "{"); Spaces; Lit (str "params"); Spaces; Lit (str "}:"); Spaces;
    Lit (str "{"); Spaces; Lit (str "params:"); Spaces;
    Lit (str "{"); Spaces; Lit param_name; Lit (str ":"); Spaces;
    Lit (str "string"); Spaces; Lit (str "}"); Spaces; Lit (str "}") ].

Definition route_params_sig : text := str "{ params }: RouteParams".

(** Step 2 *)
Definition replace_signature (param_name content : text) : text :=
  Re.sub (signature_pattern param_name) route_params_sig content.

Definition try_open : text := str "try {".

(** [len(line) - len(line.lstrip())] *)
Definition indent_of (line : text) : nat :=
  length line - length (Py.lstrip line).

(** The element appended after a [try {] line; it ends with a newline of its
    own. *)
Definition await_line (param_name : text) (indent : nat) : text :=
  Py.spaces (indent + 2) ++ str "const { " ++ param_name
    ++ str " } = await params" ++ [NL].

(** The loop over [lines], from a state [(in_function, added_await)];
    the result is [new_lines]. *)
Fixpoint add_await (param_name : text) (in_function added_await : bool)
    (lines : list text) : list text :=
  match lines with
  | [] => []
  | line :: rest =>
      let hit := Py.contains route_params_sig line in
      let in_function := if hit then true else in_function in
      let added_await := if hit then false else added_await in
      if in_function && negb added_await && Py.contains try_open line
      then line :: await_line param_name (indent_of line)
             :: add_await param_name false true rest
      else line :: add_await param_name in_function added_await rest
  end.

(** From the first line that contains the marker [{ params }: RouteParams]
    on (that line included; the marker may have been written by Step 2 or
    have been in the input), no line contains [try {]. *)
Fixpoint no_try_from_signature (lines : list text) : bool :=
  match lines with
  | [] => true
  | line :: rest =>
      if Py.contains route_params_sig line
      then forallb (fun l => negb (Py.contains try_open l)) lines
      else no_try_from_signature rest
  end.

(** Step 3 *)
Definition insert_await (param_name content : text) : text :=
  Py.join_nl (add_await param_name false false (Py.split_nl content)).

(** [params\.<name>], for an identifier name: the interpolated name is then
    literal pattern text, and a literal replacement. *)
Definition reference_pattern (param_name : text) : regex :=
  [ Lit (str "params."); Lit param_name ].

(** Step 4 *)
Definition replace_references (param_name content : text) : text :=
  Re.sub (reference_pattern param_name) param_name content.

Inductive TransformResult :=
| Skipped
| Rewritten (newText : text).

(** The body of [fix_route_file] between the read and the write. *)
Definition transform (content param_name : text) : TransformResult :=
  if guard content then Skipped
  else Rewritten
         (replace_references param_name
            (insert_await param_name
               (replace_signature param_name
                  (add_interface param_name content)))).

(* ================================================================= *)
(** ** Files, console and exceptions *)

Definition path := string.

(** A file: [data] is its text as [f.read()] returns it. *)
Record file := { data : text; readable : bool; writable : bool }.

(** The world of the script: the files it can reach and what it has printed
    (newest line first). *)
Record world := { fs : path -> option file; stdout : list string }.

Inductive exn :=
| FileNotFoundError (p : path)
| PermissionError (p : path).

Inductive outcome (A : Type) :=
| Returned (a : A)
| Raised (e : exn).

Arguments Returned {A} a.
Arguments Raised {A} e.

(** Statements that read and change the world and may raise. *)
Definition IO (A : Type) := world -> world * outcome A.

Definition ret {A} (a : A) : IO A := fun w => (w, Returned a).
Definition raise {A} (e : exn) : IO A := fun w => (w, Raised e).
Definition bind {A B} (m : IO A) (k : A -> IO B) : IO B :=
  fun w => match m w with
           | (w', Returned a) => k a w'
           | (w', Raised e) => (w', Raised e)
           end.

Notation "x <- m ;; k" := (bind m (fun x => k))
  (at level 61, m at next level, right associativity).
Notation "m ;;; k" := (bind m (fun _ => k))
  (at level 61, right associativity).

Definition print (line : string) : IO unit :=
  fun w => ({| fs := fs w; stdout := line :: stdout w |}, Returned tt).

(** [with open(filepath, 'r') as f: content = f.read()] *)
Definition read_file (p : path) : IO text :=
  fun w => match fs w p with
           | None => (w, Raised (FileNotFoundError p))
           | Some f => if readable f then (w, Returned (data f))
                       else (w, Raised (PermissionError p))
           end.

(** [with open(filepath, 'w') as f: f.write(content)]: the whole text
    replaces the file, or the open raises and the file is as it was. *)
Definition write_file (p : path) (content : text) : IO unit :=
  fun w => match fs w p with
           | Some f =>
               if writable f
               then ({| fs := fun q => if String.eqb q p
                                       then Some {| data := content;
                                                    readable := readable f;
                                                    writable := true |}
                                       else fs w q;
                        stdout := stdout w |}, Returned tt)
               else (w, Raised (PermissionError p))
           | None =>
               ({| fs := fun q => if String.eqb q p
                                  then Some {| data := content;
                                               readable := true;
                                               writable := true |}
                                  else fs w q;
                   stdout := stdout w |}, Returned tt)
           end.

Definition fix_route_file (filepath : path) (param_name : text) : IO bool :=
  content <- read_file filepath ;;
  match transform content param_name with
  | Skipped =>
      print ("  " ++ filepath ++ " - Already has RouteParams interface") ;;;
      ret false
  | Rewritten content' =>
      write_file filepath content' ;;;
      print ("  " ++ filepath ++ " - Fixed!") ;;;
      ret true
  end.

(** The configured table. *)
Definition files : list (path * text) :=
  [ ("src/app/api/quiz/[id]/route.ts"%string, str "id");
    ("src/app/api/users/[username]/route.ts"%string, str "username");
    ("src/app/api/users/[username]/follow/route.ts"%string, str "username") ].

(** [for filepath, param in files: fix_route_file(filepath, param)] *)
Fixpoint fix_all (table : list (path * text)) : IO unit :=
  match table with
  | [] => ret tt
  | (filepath, param) :: rest =>
      fix_route_file filepath param ;;; fix_all rest
  end.

(** The module's top level. *)
Definition main : IO unit :=
  print "Fixing params for Next.js 15..." ;;;
  fix_all files ;;;
  print (String "010" "Done!").

(** The content of a file after [fix_route_file] has run on it. *)
Definition text_after (content param_name : text) : text :=
  match transform content param_name with
  | Skipped => content
  | Rewritten content' => content'
  end.

(* ================================================================= *)
(** ** What a pattern matches *)

Module Lang.

(** The words of a pattern: its literals in order, with any run of white
    space at each [\s*]. *)
Inductive matches : regex -> text -> Prop :=
| matches_nil : matches [] []
| matches_lit l p w : matches p w -> matches (Lit l :: p) (l ++ w)
| matches_spaces ws p w :
    forallb isspace ws = true -> matches p w ->
    matches (Spaces :: p) (ws ++ w).

(** A text without its white space. *)
Definition strip (s : text) : text := filter (fun c => negb (isspace c)) s.

(** The literals of a pattern, concatenated. *)
Fixpoint literals (p : regex) : text :=
  match p with
  | [] => []
  | Lit l :: p' => l ++ literals p'
  | Spaces :: p' => literals p'
  end.

(** What every word of the pattern looks like without white space. *)
Definition skeleton (p : regex) : text := strip (literals p).

(** The first character of every word, when the pattern starts with a
    literal. *)
Definition first_char (p : regex) : option char :=
  match p with
  | Lit (c :: _) :: _ => Some c
  | _ => None
  end.

(** The last character of every word, when the pattern ends with a
    literal. *)
Fixpoint last_char (p : regex) : option char :=
  match p with
  | [] => None
  | t :: p' =>
      match p' with
      | [] => match t with
              | Lit l => match rev l with c :: _ => Some c | [] => None end
              | Spaces => None
              end
      | _ :: _ => last_char p'
      end
  end.

(** No proper non-empty suffix of [k] is a prefix of [k]: two occurrences of
    [k] cannot overlap. *)
Definition border_free (k : text) : bool :=
  forallb (fun i => negb (Py.startswith (skipn i k) k)) (seq 1 (length k - 1)).

(** [s] ends with [suf]. *)
Definition ends_with (suf s : text) : bool := Py.startswith (rev suf) (rev s).

(** No match of [p] can begin before a copy of [r] and end inside it or
    cover it: no stripped non-empty prefix of [r] ends the skeleton of [p],
    and the stripped [r] is not inside the skeleton. *)
Definition not_entered (p : regex) (r : text) : bool :=
  forallb (fun k => negb (ends_with (strip (firstn k r)) (skeleton p)))
          (seq 1 (length r))
  && negb (Py.contains (strip r) (skeleton p)).

(** No non-empty suffix of [k1] is a prefix of [k2]. *)
Definition no_bridge (k1 k2 : text) : bool :=
  forallb (fun i => negb (Py.startswith (skipn i k1) k2)) (seq 0 (length k1)).

(** The matches of two patterns cannot share a character: neither skeleton
    runs into the other or lies inside it. *)
Definition apart (p q : regex) : bool :=
  no_bridge (skeleton p) (skeleton q) && no_bridge (skeleton q) (skeleton p)
  && negb (Py.contains (skeleton p) (skeleton q))
  && negb (Py.contains (skeleton q) (skeleton p)).

(** A pattern whose matches can be told apart: it starts and ends with a
    character that is not white space, and its skeleton has no border. *)
Definition separable (p : regex) : bool :=
  match first_char p, last_char p with
  | Some a, Some b =>
      negb (isspace a) && negb (isspace b) && border_free (skeleton p)
  | _, _ => false
  end.

(** How often [c] occurs in [s]. *)
Definition count (c : char) (s : text) : nat := length (filter (N.eqb c) s).

(** A pattern without [\s*]: it matches its literals and nothing else. *)
Definition literal (p : regex) : bool :=
  forallb (fun t => match t with Lit _ => true | Spaces => false end) p.

(** [p] matches at no position of [s]. *)
Definition no_match (p : regex) (s : text) : Prop :=
  forall i, match_at p (skipn i s) = None.

(** [c1] is nowhere followed at once by [c2]; [pe] tells that the character
    before [w] is [c1]. *)
Fixpoint no_pair (c1 c2 : char) (pe : bool) (w : text) : bool :=
  match w with
  | [] => true
  | c :: w' =>
      (if (c =? c2)%N then negb pe else true) && no_pair c1 c2 (c =? c1)%N w'
  end.

End Lang.

(* ================================================================= *)
(** ** The texts of the specification's examples *)

Module Examples.

(** A text given by its lines. *)
Definition text_of (ls : list string) : text := Py.join_nl (map str ls).

Definition id : text := str "id".
Definition username : text := str "username".
Definition slug : text := str "slug".

(** Two imports, a blank line and a handler. *)
Definition two_imports : text :=
  text_of [ "import a from 'a'"; "import b from 'b'"; "";
            "export function GET(...) {...}" ]%string.

(** A handler body that opens with a [try]. *)
Definition try_body : text :=
  text_of [ "{ params }: RouteParams {"; "  try {"; "    ..."; "  }"; "}"
          ]%string.

(** The inline signature and the same with another parameter name. *)
Definition id_signature : text := str "{ params }: { params: { id: string } }".

(** The inline signature with a space before the first colon. *)
Definition spaced_colon_signature : text :=
  str "{ params } : { params: { id: string } }".
Definition slug_signature : text :=
  str "{ params }: { params: { slug: string } }".

(** A handler whose signature line also opens the [try]. *)
Definition one_line_handler : text :=
  text_of [ "export async function GET(r, { params }: { params: { id: string } }) { try {";
            "  return params.id";
            "} catch (e) {} }" ]%string.

(** A handler that already has the marker and opens with a [try], followed
    by a handler with the inline signature and no [try]. *)
Definition marked_then_inline : text :=
  text_of [ "export async function GET(r, { params }: RouteParams) {";
            "  try {";
            "    return 1";
            "  } catch (e) {}";
            "}";
            "export async function POST(r, { params }: { params: { id: string } }) {";
            "  return params.id";
            "}" ]%string.

(** A handler without a [try]. *)
Definition plain_handler : text :=
  text_of [ "export async function GET(r, { params }: { params: { id: string } }) {";
            "  return params.id";
            "}" ]%string.

(** A declaration named RouteParams that is not an interface. *)
Definition type_alias : text := str "type RouteParams = { slug: string }".

(** An unrelated symbol that starts like the interface. *)
Definition unrelated_interface : text :=
  str "export interface RouteParamsOfLegacyRouter {}".

Definition users_route : path := "src/app/api/users/[username]/route.ts"%string.
Definition quiz_route : path := "src/app/api/quiz/[id]/route.ts"%string.

Definition users_handler : text :=
  text_of [ "export async function GET(r, { params }: { params: { username: string } }) {";
            "  try {";
            "    return params.username";
            "  } catch (e) {}";
            "}" ]%string.

(** A checkout where the first configured file is missing and the second is
    there. *)
Definition first_file_missing : world :=
  {| fs := fun q => if String.eqb q users_route
                    then Some {| data := users_handler;
                                 readable := true; writable := true |}
                    else None;
     stdout := [] |}.

End Examples.

(* ================================================================= *)
(** ** Notions used to state further properties *)

(** An element of [new_lines] with a newline inside: the lines that come
    from [split] have none, the appended extraction elements end with one. *)
Definition has_newline (e : text) : bool := existsb (N.eqb NL) e.

(** A file that is there and can be read and written. *)
Definition usable (w : world) (p : path) : bool :=
  match fs w p with
  | Some f => readable f && writable f
  | None => false
  end.

(** A checkout with the three configured files, all readable and
    writable. *)
Definition all_files_there : world :=
  {| fs := fun q =>
       if String.eqb q Examples.quiz_route
       then Some {| data := Examples.plain_handler;
                    readable := true; writable := true |}
       else if String.eqb q Examples.users_route
       then Some {| data := Examples.users_handler;
                    readable := true; writable := true |}
       else if String.eqb q "src/app/api/users/[username]/follow/route.ts"
       then Some {| data := Examples.users_handler;
                    readable := true; writable := true |}
       else None;
     stdout := [] |}.
(* ================================================================= *)
(** ** Facts about the [str] methods *)

#[global] Arguments Re.match_at : simpl never.

Module PyFacts.
Import Py.

Lemma startswith_iff (sub s : text) :
  startswith sub s = true <-> exists r, s = sub ++ r.
Proof.
  revert s; induction sub as [|a sub IH]; intros s; simpl.
  - split; [intros _; now exists s | reflexivity].
  - destruct s as [|b s].
    + split; [discriminate | intros [r Hr]; discriminate].
    + rewrite andb_true_iff, N.eqb_eq, IH. split.
      * intros [-> [r ->]]. now exists r.
      * intros [r Hr]. injection Hr as -> ->. split; [reflexivity | now exists r].
Qed.

Lemma startswith_app (sub r : text) : startswith sub (sub ++ r) = true.
Proof. apply startswith_iff. now exists r. Qed.

Lemma startswith_length (sub s : text) :
  startswith sub s = true -> length sub <= length s.
Proof.
  intros H. apply startswith_iff in H as [r ->]. rewrite length_app. lia.
Qed.

Lemma startswith_skipn (sub s : text) :
  startswith sub s = true -> s = sub ++ skipn (length sub) s.
Proof.
  intros H. apply startswith_iff in H as [r ->].
  now rewrite skipn_app, skipn_all, Nat.sub_diag.
Qed.

Lemma contains_iff (sub s : text) :
  contains sub s = true <-> exists a b, s = a ++ sub ++ b.
Proof.
  induction s as [|c s IH].
  - simpl. rewrite orb_false_r, startswith_iff. split.
    + intros [r Hr]. now exists [], r.
    + intros [a [b H]]. destruct a; [now exists b | discriminate].
  - simpl. rewrite orb_true_iff, startswith_iff, IH. split.
    + intros [[r Hr] | [a [b H]]].
      * now exists [], r.
      * exists (c :: a), b. now rewrite H.
    + intros [a [b H]]. destruct a as [|c' a].
      * left. now exists b.
      * right. injection H as _ H. now exists a, b.
Qed.

Lemma contains_app (sub a b : text) : contains sub (a ++ sub ++ b) = true.
Proof. apply contains_iff. now exists a, b. Qed.

(** A substring whose first character is absent does not occur. *)
Lemma contains_absent (c : char) (sub s : text) :
  ~ In c s -> contains (c :: sub) s = false.
Proof.
  intros H. apply not_true_is_false. intros Hc.
  apply contains_iff in Hc as [a [b ->]].
  apply H. apply in_or_app. right. now left.
Qed.

Lemma split_nl_nonempty (s : text) : split_nl s <> [].
Proof.
  destruct s as [|c s]; simpl; [discriminate|].
  destruct (c =? NL)%N; [discriminate|].
  destruct (split_nl s); discriminate.
Qed.

Lemma split_nl_app (a b : text) :
  split_nl (a ++ NL :: b) = split_nl a ++ split_nl b.
Proof.
  induction a as [|c a IH]; simpl.
  - reflexivity.
  - destruct (c =? NL)%N.
    + now rewrite IH.
    + rewrite IH. destruct (split_nl a) as [|l ls] eqn:E.
      * now apply split_nl_nonempty in E.
      * reflexivity.
Qed.

Lemma split_nl_line (l : text) : ~ In NL l -> split_nl l = [l].
Proof.
  induction l as [|c l IH]; intros H; simpl.
  - reflexivity.
  - destruct (N.eqb_spec c NL) as [->|_].
    + exfalso. apply H. now left.
    + rewrite IH; [reflexivity | intros Hin; apply H; now right].
Qed.

Lemma split_nl_no_NL (s l : text) : In l (split_nl s) -> ~ In NL l.
Proof.
  revert l; induction s as [|c s IH]; intros l; simpl.
  - intros [<-|[]] [].
  - destruct (N.eqb_spec c NL) as [->|Hc].
    + intros [<-|H]; [intros [] | now apply IH].
    + destruct (split_nl s) as [|l0 ls] eqn:E.
      * now apply split_nl_nonempty in E.
      * intros [<-|H].
        -- intros [Hin|Hin]; [congruence|]. apply (IH l0); [now left | assumption].
        -- apply IH. now right.
Qed.

Lemma join_nl_cons (l : text) (ls : list text) :
  ls <> [] -> join_nl (l :: ls) = l ++ NL :: join_nl ls.
Proof. destruct ls; [congruence | reflexivity]. Qed.

Lemma join_nl_app (ls1 ls2 : list text) :
  ls1 <> [] -> ls2 <> [] ->
  join_nl (ls1 ++ ls2) = join_nl ls1 ++ NL :: join_nl ls2.
Proof.
  induction ls1 as [|l ls1 IH]; intros H1 H2; [congruence|].
  destruct ls1 as [|l' ls1].
  - simpl app. now rewrite join_nl_cons.
  - change ((l :: l' :: ls1) ++ ls2) with (l :: ((l' :: ls1) ++ ls2)).
    rewrite join_nl_cons by discriminate.
    rewrite IH by (discriminate || assumption).
    rewrite (join_nl_cons l) by discriminate.
    now rewrite <- app_assoc.
Qed.

Lemma join_split_nl (s : text) : join_nl (split_nl s) = s.
Proof.
  induction s as [|c s IH]; simpl.
  - reflexivity.
  - destruct (N.eqb_spec c NL) as [->|_].
    + pose proof (split_nl_nonempty s).
      destruct (split_nl s); [congruence|]. now rewrite <- IH.
    + destruct (split_nl s) as [|l ls] eqn:E.
      * now apply split_nl_nonempty in E.
      * rewrite <- IH. destruct ls; reflexivity.
Qed.

(** Splitting a joined list splits each of its elements. *)
Lemma split_join_nl (ls : list text) :
  ls <> [] -> split_nl (join_nl ls) = flat_map split_nl ls.
Proof.
  induction ls as [|l ls IH]; intros H; [congruence|].
  destruct ls as [|l' ls].
  - simpl. now rewrite app_nil_r.
  - rewrite join_nl_cons by discriminate.
    rewrite split_nl_app, IH by discriminate. reflexivity.
Qed.

End PyFacts.

(* ================================================================= *)
(** ** Facts about matching *)

Module LangFacts.
Import Py PyFacts Lang.

Lemma spaces_step (p : regex) (s : text) :
  match_at (Spaces :: p) s =
  match s with
  | c :: s' =>
      if isspace c
      then match match_at (Spaces :: p) s' with
           | Some n => Some (S n)
           | None => match_at p s
           end
      else match_at p s
  | [] => match_at p s
  end.
Proof. destruct s; reflexivity. Qed.

Lemma lit_step (l : text) (p : regex) (s : text) :
  match_at (Lit l :: p) s =
  if startswith l s
  then option_map (Nat.add (length l)) (match_at p (skipn (length l) s))
  else None.
Proof. reflexivity. Qed.

(** The matcher only returns matches. *)
Lemma match_at_sound (p : regex) : forall s n,
  match_at p s = Some n ->
  exists w r, s = w ++ r /\ length w = n /\ matches p w.
Proof.
  induction p as [|[l|] p IH]; intros s n.
  - simpl. intros [= <-]. exists [], s. repeat split. constructor.
  - rewrite lit_step. destruct (startswith l s) eqn:E; [|discriminate].
    destruct (match_at p (skipn (length l) s)) as [k|] eqn:M; [|discriminate].
    simpl. intros [= <-]. destruct (IH _ _ M) as (w & r & Hs & Hl & Hw).
    exists (l ++ w), r. repeat split.
    + rewrite <- app_assoc, <- Hs. now apply startswith_skipn.
    + rewrite length_app. lia.
    + now constructor.
  - revert n. induction s as [|c s IHs]; intros n; rewrite spaces_step.
    + intros M. destruct (IH _ _ M) as (w & r & Hs & Hl & Hw).
      exists w, r. repeat split; try assumption.
      now apply (matches_spaces []).
    + assert (Hrest : match_at p (c :: s) = Some n ->
                exists w r, c :: s = w ++ r /\ length w = n
                            /\ matches (Spaces :: p) w).
      { intros M. destruct (IH _ _ M) as (w & r & Hs & Hl & Hw).
        exists w, r. repeat split; try assumption.
        now apply (matches_spaces []). }
      destruct (isspace c) eqn:Ec; [|exact Hrest].
      destruct (match_at (Spaces :: p) s) as [k|] eqn:M; [|exact Hrest].
      intros [= <-]. destruct (IHs _ eq_refl) as (w & r & Hs & Hl & Hw).
      inversion Hw as [| |ws p' w' Hws Hw' E1 E2]; subst.
      exists (c :: ws ++ w'), r. repeat split.
      apply (matches_spaces (c :: ws)); [|assumption].
      simpl. now rewrite Ec.
Qed.

(** The matcher finds a match wherever there is one. *)
Lemma match_at_complete (p : regex) : forall w r,
  matches p w -> match_at p (w ++ r) <> None.
Proof.
  intros w r H. induction H as [|l p w H IH|ws p w Hws H IH].
  - discriminate.
  - rewrite lit_step, <- app_assoc, startswith_app.
    rewrite skipn_app, skipn_all, Nat.sub_diag. simpl.
    destruct (match_at p (w ++ r)); [discriminate | congruence].
  - induction ws as [|c ws IHws].
    + rewrite spaces_step. change (([] ++ w) ++ r) with (w ++ r).
      revert IH. destruct (w ++ r) as [|c s]; intros IH; [exact IH|].
      destruct (isspace c); [|exact IH].
      destruct (match_at (Spaces :: p) s); [discriminate | exact IH].
    + simpl in Hws. apply andb_true_iff in Hws as [Hc Hws].
      change (((c :: ws) ++ w) ++ r) with (c :: ((ws ++ w) ++ r)).
      rewrite spaces_step, Hc.
      specialize (IHws Hws).
      destruct (match_at (Spaces :: p) ((ws ++ w) ++ r));
        [discriminate | congruence].
Qed.

Lemma strip_app (a b : text) : strip (a ++ b) = strip a ++ strip b.
Proof. apply filter_app. Qed.

Lemma strip_spaces (ws : text) : forallb isspace ws = true -> strip ws = [].
Proof.
  induction ws as [|c ws IH]; simpl; [reflexivity|].
  intros H. apply andb_true_iff in H as [Hc Hws]. rewrite Hc. simpl. auto.
Qed.

Lemma strip_nil_spaces (ws : text) : strip ws = [] -> forallb isspace ws = true.
Proof.
  induction ws as [|c ws IH]; simpl; [reflexivity|].
  destruct (isspace c); simpl; [assumption | discriminate].
Qed.

(** Without white space, every word of a pattern is its skeleton. *)
Lemma matches_strip (p : regex) (w : text) :
  matches p w -> strip w = skeleton p.
Proof.
  unfold skeleton. induction 1 as [|l p w H IH|ws p w Hws H IH]; simpl.
  - reflexivity.
  - now rewrite !strip_app, IH.
  - now rewrite strip_app, strip_spaces, IH.
Qed.

Lemma matches_first (p : regex) (c : char) (w : text) :
  first_char p = Some c -> matches p w -> exists w', w = c :: w'.
Proof.
  intros Hc H. destruct H as [|l p w H|ws p w Hws H]; try discriminate.
  destruct l as [|c' l]; [discriminate|]. injection Hc as ->.
  now exists (l ++ w).
Qed.

Lemma matches_last (p : regex) (c : char) (w : text) :
  last_char p = Some c -> matches p w -> exists w', w = w' ++ [c].
Proof.
  intros Hc H. induction H as [|l p w H IH|ws p w Hws H IH].
  - discriminate.
  - destruct p as [|t p].
    + inversion H; subst. simpl in Hc.
      destruct (rev l) as [|c' l'] eqn:E; [discriminate|].
      injection Hc as ->. exists (rev l').
      rewrite app_nil_r, <- (rev_involutive l), E. reflexivity.
    + destruct (IH Hc) as [w' ->]. exists (l ++ w'). now rewrite app_assoc.
  - destruct p as [|t p]; [discriminate|].
    destruct (IH Hc) as [w' ->]. exists (ws ++ w'). now rewrite app_assoc.
Qed.

Lemma app_self_nil (k x : text) : k = k ++ x -> x = [].
Proof.
  intros H. apply (f_equal (@length _)) in H. rewrite length_app in H.
  destruct x; [reflexivity | simpl in H; lia].
Qed.

Lemma nil_app_self (k x : text) : k = x ++ k -> x = [].
Proof.
  intros H. apply (f_equal (@length _)) in H. rewrite length_app in H.
  destruct x; [reflexivity | simpl in H; lia].
Qed.

Lemma border_free_spec (k x y z : text) :
  border_free k = true -> k = x ++ y -> k = y ++ z -> x <> [] -> y <> [] ->
  False.
Proof.
  unfold border_free. intros Hb Hx Hy Nx Ny.
  rewrite forallb_forall in Hb. specialize (Hb (length x)).
  assert (Hin : In (length x) (seq 1 (length k - 1))).
  { apply in_seq. rewrite Hx at 1. rewrite length_app.
    destruct x; [congruence|]. destruct y; [congruence|]. simpl. lia. }
  apply Hb in Hin. apply negb_true_iff in Hin.
  rewrite Hx in Hin at 1. rewrite skipn_app, skipn_all, Nat.sub_diag in Hin.
  simpl in Hin. rewrite Hy, startswith_app in Hin. discriminate.
Qed.

(** *** Patterns whose matches cannot overlap *)

Section Separable.

Variable p : regex.
Hypothesis Hsep : separable p = true.

Lemma sep_first : exists a, first_char p = Some a /\ isspace a = false.
Proof.
  unfold separable in Hsep. destruct (first_char p) as [a|]; [|discriminate].
  destruct (last_char p); [|discriminate].
  apply andb_true_iff in Hsep as [H _]. apply andb_true_iff in H as [H _].
  exists a. split; [reflexivity | now apply negb_true_iff].
Qed.

Lemma sep_last : exists b, last_char p = Some b /\ isspace b = false.
Proof.
  unfold separable in Hsep. destruct (first_char p) as [a|]; [|discriminate].
  destruct (last_char p) as [b|]; [|discriminate].
  apply andb_true_iff in Hsep as [H _]. apply andb_true_iff in H as [_ H].
  exists b. split; [reflexivity | now apply negb_true_iff].
Qed.

Lemma sep_border : border_free (skeleton p) = true.
Proof.
  unfold separable in Hsep. destruct (first_char p) as [a|]; [|discriminate].
  destruct (last_char p) as [b|]; [|discriminate].
  now apply andb_true_iff in Hsep as [_ H].
Qed.

Lemma matches_cons (w : text) :
  matches p w -> exists c w', w = c :: w' /\ isspace c = false.
Proof.
  intros H. destruct sep_first as (a & Ha & Hs).
  destruct (matches_first _ _ _ Ha H) as [w' ->]. now exists a, w'.
Qed.

(** A non-empty prefix of a match keeps a character once stripped. *)
Lemma strip_prefix_nonempty (w x y : text) :
  matches p w -> w = x ++ y -> x <> [] -> strip x <> [].
Proof.
  intros H E Nx. destruct (matches_cons _ H) as (c & w' & -> & Hc).
  destruct x as [|c' x]; [congruence|]. injection E as <- _.
  simpl. now rewrite Hc.
Qed.

(** Two matches at the same place are the same. *)
Lemma matches_unique (w1 w2 r1 r2 : text) :
  matches p w1 -> matches p w2 -> w1 ++ r1 = w2 ++ r2 -> w1 = w2.
Proof.
  assert (Hlonger : forall u1 u2 l, matches p u1 -> matches p u2 ->
                                    u1 = u2 ++ l -> l = []).
  { clear w1 w2 r1 r2. intros w1 w2 l H1 H2 E.
    assert (Hl : strip l = []).
    { apply app_self_nil with (k := skeleton p).
      rewrite <- (matches_strip _ _ H2) at 2. rewrite <- strip_app, <- E.
      symmetry. now apply matches_strip. }
    apply strip_nil_spaces in Hl.
    destruct sep_last as (b & Hb & Hs).
    destruct (matches_last _ _ _ Hb H1) as [w' E'].
    destruct l as [|x l]; [reflexivity|]. exfalso.
    destruct (@exists_last _ (x :: l)) as (l' & y & El); [discriminate|].
    rewrite El in E, Hl. rewrite E', app_assoc in E.
    apply app_inj_tail in E as [_ ->].
    rewrite forallb_app in Hl. apply andb_true_iff in Hl as [_ Hl].
    simpl in Hl. rewrite Hs in Hl. discriminate. }
  intros H1 H2 E. apply app_eq_app in E as [l [[E _]|[E _]]].
  - rewrite E, (Hlonger _ _ _ H1 H2 E). apply app_nil_r.
  - rewrite E, (Hlonger _ _ _ H2 H1 E). now rewrite app_nil_r.
Qed.

(** A match that starts before another one ends before it. *)
Lemma no_overlap (a w b m r : text) :
  matches p m -> matches p w -> a ++ w ++ b = m ++ r -> a <> [] ->
  length m <= length a.
Proof.
  intros Hm Hw E Na.
  destruct (Nat.le_gt_cases (length m) (length a)) as [|Hlt]; [assumption|].
  exfalso. apply app_eq_app in E as [l [[E _]|[E E2]]].
  { rewrite E, length_app in Hlt. lia. }
  assert (Nl : l <> []).
  { intros ->. rewrite E, app_nil_r in Hlt. lia. }
  assert (Sa : strip a <> []) by (apply (strip_prefix_nonempty _ _ _ Hm E Na)).
  apply app_eq_app in E2 as [z [[E2 _]|[E2 _]]].
  - (* the later match ends after the earlier one *)
    assert (Sl : strip l <> []) by (apply (strip_prefix_nonempty _ _ _ Hw E2 Nl)).
    apply (border_free_spec (skeleton p) (strip a) (strip l) (strip z)
             sep_border).
    + rewrite <- strip_app, <- E. symmetry. now apply matches_strip.
    + rewrite <- strip_app, <- E2. symmetry. now apply matches_strip.
    + assumption.
    + assumption.
  - (* the later match lies inside the earlier one *)
    pose proof (matches_strip _ _ Hm) as K1.
    rewrite E, E2, !strip_app, (matches_strip _ _ Hw) in K1.
    apply (f_equal (@length _)) in K1. rewrite !length_app in K1.
    destruct (strip a); [congruence | simpl in K1; lia].
Qed.

(** The matcher returns the match. *)
Lemma match_at_matches (w r : text) :
  matches p w -> match_at p (w ++ r) = Some (length w).
Proof.
  intros H. destruct (match_at p (w ++ r)) as [n|] eqn:E.
  - destruct (match_at_sound _ _ _ E) as (w' & r' & Hs & Hl & Hw').
    now rewrite (matches_unique _ _ _ _ H Hw' Hs), Hl.
  - now apply (match_at_complete p w r) in H.
Qed.

Lemma match_at_positive (s : text) (n : nat) :
  match_at p s = Some n -> 0 < n.
Proof.
  intros E. destruct (match_at_sound _ _ _ E) as (w & r & _ & Hl & Hw).
  destruct (matches_cons _ Hw) as (c & w' & -> & _). simpl in Hl. lia.
Qed.

End Separable.

End LangFacts.

(* ================================================================= *)
(** ** Facts about [re.sub] *)

Module SubFacts.
Import Py PyFacts Lang LangFacts.

Lemma sub_from_skip (p : regex) (r : text) : forall s k,
  sub_from p r k s = sub p r (skipn k s).
Proof.
  induction s as [|c s IH]; intros k.
  - destruct k; reflexivity.
  - destruct k as [|k]; [reflexivity|]. simpl. apply IH.
Qed.

Lemma sub_nil (p : regex) (r : text) : sub p r [] = [].
Proof. reflexivity. Qed.

Lemma sub_match (p : regex) (r : text) (c : char) (s : text) (n : nat) :
  match_at p (c :: s) = Some (S n) ->
  sub p r (c :: s) = r ++ sub p r (skipn n s).
Proof.
  intros E. unfold sub at 1. simpl. rewrite E. now rewrite sub_from_skip.
Qed.

Lemma sub_nomatch (p : regex) (r : text) (c : char) (s : text) :
  match_at p (c :: s) = None -> sub p r (c :: s) = c :: sub p r s.
Proof. intros E. unfold sub at 1. simpl. now rewrite E. Qed.

Lemma sub_empty_match (p : regex) (r : text) (c : char) (s : text) :
  match_at p (c :: s) = Some 0 -> sub p r (c :: s) = c :: sub p r s.
Proof. intros E. unfold sub at 1. simpl. now rewrite E. Qed.

(** Where the pattern matches nowhere, nothing changes. *)
Lemma sub_no_match (p : regex) (r s : text) :
  no_match p s -> sub p r s = s.
Proof.
  induction s as [|c s IH]; intros H; [reflexivity|].
  rewrite sub_nomatch by apply (H 0). f_equal. apply IH.
  intros i. apply (H (S i)).
Qed.

Lemma count_app (c : char) (a b : text) :
  count c (a ++ b) = count c a + count c b.
Proof. unfold count. now rewrite filter_app, length_app. Qed.

Lemma count_absent (c : char) (s : text) : ~ In c s -> count c s = 0.
Proof.
  unfold count. induction s as [|x s IH]; intros H; [reflexivity|]. simpl.
  destruct (N.eqb_spec c x) as [->|_].
  - exfalso. apply H. now left.
  - apply IH. intros Hin. apply H. now right.
Qed.

(** Every match has the characters of the literals. *)
Lemma matches_count (c : char) (p : regex) (w : text) :
  matches p w ->
  count c (literals p) <= count c w.
Proof.
  induction 1 as [|l p w H IH|ws p w Hws H IH]; cbn [literals].
  - simpl. lia.
  - rewrite !count_app. apply Nat.add_le_mono_l, IH.
  - rewrite count_app. etransitivity; [exact IH | apply Nat.le_add_l].
Qed.

(** A text with too few of some character has no match. *)
Lemma no_match_count (c : char) (p : regex) (s : text) :
  count c s < count c (literals p) ->
  no_match p s.
Proof.
  intros H i. destruct (match_at p (skipn i s)) as [n|] eqn:E; [|reflexivity].
  exfalso. destruct (match_at_sound _ _ _ E) as (w & r & Hs & _ & Hw).
  apply (matches_count c) in Hw.
  rewrite <- (firstn_skipn i s), Hs, !count_app in H. lia.
Qed.

(** The text up to the first match is kept, and the match is replaced. *)
Lemma sub_first_match (p : regex) (r s : text) :
  sub p r s = s \/
  exists u w rest, s = u ++ w ++ rest /\ matches p w /\
                   sub p r s = u ++ r ++ sub p r rest.
Proof.
  induction s as [|c s IH]; [now left|].
  destruct (match_at p (c :: s)) as [[|n]|] eqn:E.
  - rewrite (sub_empty_match _ _ _ _ E).
    destruct IH as [->|(u & w & rest & -> & Hw & ->)]; [now left|].
    right. now exists (c :: u), w, rest.
  - right. destruct (match_at_sound _ _ _ E) as (w & rest & Hs & Hl & Hw).
    exists [], w, rest. repeat split; try assumption.
    rewrite (sub_match _ _ _ _ _ E). simpl. do 2 f_equal.
    destruct w as [|c' w]; [discriminate|]. injection Hs as -> ->.
    injection Hl as <-. now rewrite skipn_app, skipn_all, Nat.sub_diag.
  - rewrite (sub_nomatch _ _ _ _ E).
    destruct IH as [->|(u & w & rest & -> & Hw & ->)]; [now left|].
    right. now exists (c :: u), w, rest.
Qed.

Section Separable.

Variable p : regex.
Variable r : text.
Hypothesis Hsep : separable p = true.

Lemma sub_word (w b : text) :
  matches p w -> sub p r (w ++ b) = r ++ sub p r b.
Proof.
  intros H. pose proof (match_at_matches p Hsep w b H) as E.
  destruct (matches_cons p Hsep w H) as (c & w' & -> & _).
  simpl in E. simpl. rewrite (sub_match _ _ _ _ _ E).
  now rewrite skipn_app, skipn_all, Nat.sub_diag.
Qed.

(** Each occurrence of the pattern is replaced, and the text on either side
    is rewritten on its own. *)
Theorem sub_occurrence (a w b : text) :
  matches p w -> sub p r (a ++ w ++ b) = sub p r a ++ r ++ sub p r b.
Proof.
  intros Hw. remember (length a) as n eqn:Hn.
  revert a Hn. induction n as [n IH] using lt_wf_ind. intros a Hn.
  destruct a as [|c a]; [simpl; now apply sub_word|].
  destruct (match_at p ((c :: a) ++ w ++ b)) as [[|k]|] eqn:M.
  - apply (match_at_positive p Hsep) in M. lia.
  - destruct (match_at_sound _ _ _ M) as (m & rest & Hs & Hl & Hm).
    pose proof (no_overlap p Hsep _ _ _ _ _ Hm Hw Hs) as Hle.
    specialize (Hle ltac:(discriminate)).
    assert (El : exists l, c :: a = m ++ l /\ rest = l ++ w ++ b).
    { apply app_eq_app in Hs as [l [[E1 E2]|[E1 E2]]].
      - now exists l.
      - rewrite E1, length_app in Hle. destruct l; [|simpl in Hle; lia].
        exists []. rewrite app_nil_r in E1. simpl in E2.
        now rewrite E1, app_nil_r, E2. }
    destruct El as (l & Ea & ->).
    assert (Hlt : length l < n).
    { rewrite Hn, Ea, length_app. destruct m; [discriminate|]. simpl. lia. }
    rewrite Ea, <- app_assoc.
    rewrite (sub_word m (l ++ w ++ b) Hm), (sub_word m l Hm).
    rewrite (IH _ Hlt l eq_refl). now rewrite <- app_assoc.
  - assert (Ma : match_at p (c :: a) = None).
    { destruct (match_at p (c :: a)) as [k|] eqn:E; [|reflexivity].
      destruct (match_at_sound _ _ _ E) as (m & rest & Hs & _ & Hm).
      apply (match_at_complete p m (rest ++ w ++ b)) in Hm.
      rewrite app_assoc, <- Hs in Hm. congruence. }
    simpl in M. simpl. rewrite (sub_nomatch _ _ _ _ M), (sub_nomatch _ _ _ _ Ma).
    simpl. f_equal. apply (IH (length a)); [|reflexivity].
    rewrite Hn. simpl. lia.
Qed.

End Separable.

End SubFacts.

(* ================================================================= *)
(** ** Identifier names *)

Module NameFacts.
Import Py PyFacts Lang LangFacts SubFacts.

Lemma ident_char_spec (c : char) :
  ident_char c = true <->
  ((48 <= c <= 57) \/ (65 <= c <= 90) \/ c = 95 \/ (97 <= c <= 122))%N.
Proof.
  unfold ident_char.
  rewrite !orb_true_iff, !andb_true_iff, !N.leb_le, N.eqb_eq. tauto.
Qed.

Lemma ident_not_space (c : char) : ident_char c = true -> isspace c = false.
Proof.
  intros H. apply ident_char_spec in H.
  destruct (isspace c) eqn:E; [exfalso | reflexivity].
  unfold isspace in E.
  rewrite !orb_true_iff, !andb_true_iff, !N.leb_le, !N.eqb_eq in E. lia.
Qed.

(** A character that is not an identifier character is not in a name. *)
Lemma name_without (c : char) (name : text) :
  identifier name = true -> ident_char c = false -> ~ In c name.
Proof.
  unfold identifier. rewrite forallb_forall. intros H Hc Hin.
  apply H in Hin. congruence.
Qed.

Lemma name_count (c : char) (name : text) :
  identifier name = true -> ident_char c = false -> count c name = 0.
Proof. intros H Hc. apply count_absent. now apply name_without. Qed.

Lemma name_no_space (name : text) :
  identifier name = true -> strip name = name.
Proof.
  unfold identifier, strip. induction name as [|c name IH]; [reflexivity|].
  simpl. intros H. apply andb_true_iff in H as [Hc H].
  now rewrite (ident_not_space _ Hc), IH.
Qed.

End NameFacts.

(* ================================================================= *)
(** ** The await loop *)

Module LoopFacts.
Import Py PyFacts.

(** Not armed and no signature line: the loop copies the lines. *)
Lemma add_await_idle (name : text) (added : bool) (lines : list text) :
  (forall l, In l lines -> contains route_params_sig l = false) ->
  add_await name false added lines = lines.
Proof.
  induction lines as [|l lines IH]; intros H; [reflexivity|].
  simpl. rewrite (H l) by now left. simpl. f_equal.
  apply IH. intros l' Hl'. apply H. now right.
Qed.

Lemma split_nl_head (s l0 : text) (ls : list text) :
  split_nl s = l0 :: ls -> exists b, s = l0 ++ b.
Proof.
  revert l0 ls. induction s as [|c s IH]; intros l0 ls; simpl.
  - intros [= <- _]. now exists [].
  - destruct (c =? NL)%N.
    + intros [= <- _]. now exists (c :: s).
    + destruct (split_nl s) as [|l1 ls1] eqn:E.
      * now apply split_nl_nonempty in E.
      * intros [= <- _]. destruct (IH _ _ eq_refl) as [b ->]. now exists b.
Qed.

(** Every line of a text is a part of it. *)
Lemma split_nl_infix (s l : text) :
  In l (split_nl s) -> exists a b, s = a ++ l ++ b.
Proof.
  revert l. induction s as [|c s IH]; intros l; simpl.
  - intros [<-|[]]. now exists [], [].
  - destruct (N.eqb_spec c NL) as [->|_].
    + intros [<-|H]; [now exists [], (NL :: s)|].
      destruct (IH _ H) as (a & b & ->). now exists (NL :: a), b.
    + destruct (split_nl s) as [|l0 ls] eqn:E.
      * now apply split_nl_nonempty in E.
      * intros [<-|H].
        -- destruct (split_nl_head _ _ _ E) as [b ->]. now exists [], b.
        -- destruct (IH l) as (a & b & ->); [now right|].
           now exists (c :: a), b.
Qed.

(** A text without the signature has no signature line. *)
Lemma no_signature_line (s : text) :
  contains route_params_sig s = false ->
  forall l, In l (split_nl s) -> contains route_params_sig l = false.
Proof.
  intros H l Hl. apply not_true_is_false. intros Hc.
  enough (contains route_params_sig s = true) by congruence.
  apply contains_iff in Hc as (a & b & ->).
  apply split_nl_infix in Hl as (x & y & ->).
  apply contains_iff.
  exists (x ++ a), (b ++ y). now rewrite <- !app_assoc.
Qed.

Lemma insert_await_idle (name s : text) :
  contains route_params_sig s = false -> insert_await name s = s.
Proof.
  intros H. unfold insert_await.
  rewrite add_await_idle by now apply no_signature_line.
  apply join_split_nl.
Qed.

End LoopFacts.

(* ================================================================= *)
(** ** Adjacent characters *)

Module PairFacts.
Import Py PyFacts Lang NameFacts.

Lemma no_pair_at (c1 c2 : char) (x y : text) : forall pe,
  no_pair c1 c2 pe (x ++ c1 :: c2 :: y) = false.
Proof.
  induction x as [|c x IH]; intros pe; simpl.
  - rewrite !N.eqb_refl. simpl. apply andb_false_r.
  - rewrite IH. apply andb_false_r.
Qed.

(** A text without the pair does not contain a text with the pair. *)
Lemma no_pair_contains (c1 c2 : char) (u v s : text) (pe : bool) :
  no_pair c1 c2 pe s = true ->
  contains (u ++ c1 :: c2 :: v) s = false.
Proof.
  intros H. apply not_true_is_false. intros Hc.
  apply contains_iff in Hc as (a & b & ->).
  replace (a ++ (u ++ c1 :: c2 :: v) ++ b)
    with ((a ++ u) ++ c1 :: c2 :: (v ++ b)) in H
    by (rewrite <- !app_assoc; reflexivity).
  now rewrite no_pair_at in H.
Qed.

(** Across a name that is followed by a character other than [c2]. *)
Lemma no_pair_name (c1 c2 c : char) (name rest : text) : forall pe,
  identifier name = true -> ident_char c2 = false -> (c =? c2)%N = false ->
  no_pair c1 c2 pe (name ++ c :: rest) = no_pair c1 c2 (c =? c1)%N rest.
Proof.
  induction name as [|x name IH]; intros pe Hn H2 Hc; simpl.
  - now rewrite Hc.
  - simpl in Hn. apply andb_true_iff in Hn as [Hx Hn].
    destruct (N.eqb_spec x c2) as [->|_]; [congruence|].
    simpl. now apply IH.
Qed.

(** Across a run of white space, when [c1] is not white space. *)
Lemma no_pair_spaces (c1 c2 : char) (ws rest : text) :
  forallb isspace ws = true -> isspace c1 = false ->
  no_pair c1 c2 false (ws ++ rest) = no_pair c1 c2 false rest.
Proof.
  intros Hws H1. induction ws as [|x ws IH]; [reflexivity|].
  simpl in Hws. apply andb_true_iff in Hws as [Hx Hws]. simpl.
  destruct (N.eqb_spec x c1) as [->|_]; [congruence|].
  rewrite (IH Hws). now destruct (x =? c2)%N.
Qed.

End PairFacts.

(* ================================================================= *)
(** ** The injected block *)

Module BlockFacts.
Import Py PyFacts Lang LangFacts SubFacts NameFacts LoopFacts PairFacts.

Lemma literals_signature (name : text) :
  literals (signature_pattern name) =
  str "{params}:{params:{" ++ name ++ str ":string}}".
Proof. reflexivity. Qed.

Lemma literals_reference (name : text) :
  literals (reference_pattern name) = str "params." ++ name.
Proof. simpl. now rewrite app_nil_r. Qed.

Lemma add_interface_nil (name : text) :
  add_interface name [] = interface_code name.
Proof.
  unfold add_interface.
  change (slice_to [] (import_section_end [] + 1)) with (@nil char).
  change (slice_from [] (import_section_end [] + 1)) with (@nil char).
  now rewrite app_nil_r.
Qed.

(** The block has two colons, a signature has three. *)
Lemma block_no_signature (name : text) :
  identifier name = true ->
  no_match (signature_pattern name) (interface_code name).
Proof.
  intros H. apply no_match_count with (c := 58%N).
  rewrite literals_signature. unfold interface_code.
  rewrite !count_app, (name_count 58%N name H eq_refl).
  vm_compute. lia.
Qed.

(** The block has no dot. *)
Lemma block_no_reference (name : text) :
  identifier name = true ->
  no_match (reference_pattern name) (interface_code name).
Proof.
  intros H. apply no_match_count with (c := 46%N).
  rewrite literals_reference. unfold interface_code.
  rewrite !count_app, (name_count 46%N name H eq_refl).
  vm_compute. lia.
Qed.

(** In the block every brace ends its line. *)
Lemma block_no_marker (name : text) :
  identifier name = true ->
  contains route_params_sig (interface_code name) = false.
Proof.
  intros H.
  apply (no_pair_contains 123%N 32%N [] (str "params }: RouteParams")
           (interface_code name) false).
  unfold interface_code.
  let h := eval vm_compute in interface_head in change interface_head with h.
  let t := eval vm_compute in interface_tail in change interface_tail with t.
  cbn [app no_pair N.eqb Pos.eqb negb andb].
  rewrite (no_pair_name 123%N 32%N 58%N name _ false H eq_refl eq_refl).
  reflexivity.
Qed.

End BlockFacts.

Import BlockFacts.

(** C10: on the empty text the transformer returns [Rewritten] with exactly
    the interface block, a newline, [interface RouteParams {],
    [  params: Promise<{], [    <name>: string], [  }>], [}] and a newline:
    Step 1 puts the block at position 0 and Steps 2, 3 and 4 leave it as it
    is. *)
Theorem empty_input_gives_interface_block (name : text) :
  identifier name = true ->
  let block :=
    NL :: str "interface RouteParams {" ++
    NL :: str "  params: Promise<{" ++
    NL :: str "    " ++ name ++ str ": string" ++
    NL :: str "  }>" ++
    NL :: str "}" ++
    [NL] in
  transform [] name = Rewritten block /\
  import_section_end [] = (-1)%Z /\
  add_interface name [] = block /\
  replace_signature name block = block /\
  insert_await name block = block /\
  replace_references name block = block.
Proof.
  intros H block. change block with (interface_code name). clear block.
  assert (H1 := add_interface_nil name).
  assert (H2 : replace_signature name (interface_code name)
               = interface_code name)
    by (apply SubFacts.sub_no_match; now apply block_no_signature).
  assert (H3 : insert_await name (interface_code name) = interface_code name)
    by (apply LoopFacts.insert_await_idle; now apply block_no_marker).
  assert (H4 : replace_references name (interface_code name)
               = interface_code name)
    by (apply SubFacts.sub_no_match; now apply block_no_reference).
  split; [|split; [reflexivity|]; split; [exact H1|];
           split; [exact H2|]; split; [exact H3 | exact H4]].
  unfold transform. change (guard []) with false. cbv iota.
  now rewrite H1, H2, H3, H4.
Qed.

Lemma empty_input_gives_interface_block_id :
  identifier Examples.id = true /\
  transform [] Examples.id
  = Rewritten (Examples.text_of
      [ ""; "interface RouteParams {"; "  params: Promise<{";
        "    id: string"; "  }>"; "}"; "" ]%string).
Proof.
  split; [reflexivity|].
  exact (proj1 (empty_input_gives_interface_block Examples.id eq_refl)).
Defined.

(* ================================================================= *)
(** ** Step 1: where the block lands *)

(** C1: on the example the search for the blank line stops at the newline
    that ends the first import, so the block is put between the two imports:
    after the first import line and before the last one. *)
Theorem interface_block_lands_before_last_import :
  import_section_end Examples.two_imports = 17%Z /\
  transform Examples.two_imports Examples.id =
  Rewritten (Examples.text_of
    [ "import a from 'a'"; "";
      "interface RouteParams {"; "  params: Promise<{"; "    id: string";
      "  }>"; "}";
      "import b from 'b'"; ""; "export function GET(...) {...}" ]%string).
Proof. split; vm_compute; reflexivity. Qed.

(* ================================================================= *)
(** ** The guard *)

(** C4, as stated: a type alias named RouteParams is a declaration named
    RouteParams, and the file is rewritten all the same. *)
Lemma type_alias_is_not_skipped :
  transform Examples.type_alias Examples.id =
  Rewritten (interface_code Examples.id ++ Examples.type_alias).
Proof. vm_compute. reflexivity. Qed.

(** C4: a text that contains the literal [interface RouteParams] is skipped,
    also when that is the start of an unrelated name; the file and its
    content stay as they are and the function returns [False]. *)
Theorem guard_skips_and_writes_nothing (content name : text) :
  guard content = true ->
  transform content name = Skipped /\
  text_after content name = content /\
  forall (w : world) (p : path) (f : file),
    fs w p = Some f -> readable f = true -> data f = content ->
    exists w', fix_route_file p name w = (w', Returned false) /\
               fs w' = fs w.
Proof.
  intros H.
  assert (T : transform content name = Skipped)
    by (unfold transform; now rewrite H).
  split; [exact T|]. split; [unfold text_after; now rewrite T|].
  intros w p f Hf Hr Hd. eexists. split.
  - unfold fix_route_file, bind, read_file. rewrite Hf, Hr, Hd, T. reflexivity.
  - reflexivity.
Qed.

Lemma guard_skips_unrelated_interface :
  guard Examples.unrelated_interface = true /\
  transform Examples.unrelated_interface Examples.id = Skipped.
Proof.
  split; [reflexivity|].
  apply (guard_skips_and_writes_nothing Examples.unrelated_interface
           Examples.id).
  reflexivity.
Defined.

(* ================================================================= *)
(** ** The driver *)

(** C8, as stated: with the first configured file missing, the run ends in
    the exception of that file; the second file, which [fix_route_file]
    alone would rewrite, is left as it was and nothing more is printed. *)
Lemma missing_file_stops_the_run :
  snd (main Examples.first_file_missing)
    = Raised (FileNotFoundError Examples.quiz_route) /\
  fs (fst (main Examples.first_file_missing)) Examples.users_route
    = fs Examples.first_file_missing Examples.users_route /\
  stdout (fst (main Examples.first_file_missing))
    = ["Fixing params for Next.js 15..."%string] /\
  snd (fix_route_file Examples.users_route Examples.username
         Examples.first_file_missing) = Returned true.
Proof. repeat split; vm_compute; reflexivity. Qed.

Lemma fix_all_app (t1 t2 : list (path * text)) (w : world) :
  fix_all (t1 ++ t2) w =
  match fix_all t1 w with
  | (w1, Returned _) => fix_all t2 w1
  | (w1, Raised e) => (w1, Raised e)
  end.
Proof.
  revert w. induction t1 as [|[p name] t1 IH]; intros w; [reflexivity|].
  simpl. unfold bind.
  destruct (fix_route_file p name w) as [w' [b|e]]; [apply IH | reflexivity].
Qed.

(** C8: an exception raised for one file ends the loop there: the files
    before it have been handled, the files after it are not touched, and the
    exception leaves the loop. *)
Theorem io_error_ends_the_loop
    (before after : list (path * text)) (p : path) (name : text)
    (w w1 w2 : world) (e : exn) :
  fix_all before w = (w1, Returned tt) ->
  fix_route_file p name w1 = (w2, Raised e) ->
  fix_all (before ++ (p, name) :: after) w = (w2, Raised e).
Proof.
  intros H1 H2. rewrite fix_all_app, H1. simpl. unfold bind. now rewrite H2.
Qed.

Lemma io_error_ends_the_loop_at_first_file :
  fix_all [] Examples.first_file_missing
    = (Examples.first_file_missing, Returned tt) /\
  fix_route_file Examples.quiz_route Examples.id Examples.first_file_missing
    = (Examples.first_file_missing,
       Raised (FileNotFoundError Examples.quiz_route)) /\
  fix_all files Examples.first_file_missing
    = (Examples.first_file_missing,
       Raised (FileNotFoundError Examples.quiz_route)).
Proof.
  assert (H1 : fix_all [] Examples.first_file_missing
               = (Examples.first_file_missing, Returned tt)) by reflexivity.
  assert (H2 : fix_route_file Examples.quiz_route Examples.id
                 Examples.first_file_missing
               = (Examples.first_file_missing,
                  Raised (FileNotFoundError Examples.quiz_route)))
    by reflexivity.
  split; [exact H1|]. split; [exact H2|].
  exact (io_error_ends_the_loop [] (tl files) Examples.quiz_route
           Examples.id Examples.first_file_missing
           Examples.first_file_missing Examples.first_file_missing
           (FileNotFoundError Examples.quiz_route) H1 H2).
Defined.

(* ================================================================= *)
(** ** Step 3: the extraction line *)

Module AwaitFacts.
Import Py PyFacts LoopFacts.

Lemma add_await_length (name : text) (lines : list text) :
  forall in_function added_await,
  length (add_await name in_function added_await lines)
  <= length lines + length (filter (contains route_params_sig) lines)
     + (if in_function && negb added_await then 1 else 0).
Proof.
  induction lines as [|l lines IH]; intros inf added; simpl; [lia|].
  destruct (contains route_params_sig l) eqn:Hs; simpl.
  - destruct (contains try_open l); simpl.
    + specialize (IH false true). simpl in IH. lia.
    + specialize (IH true false). simpl in IH. lia.
  - destruct (inf && negb added && contains try_open l) eqn:Ht; simpl.
    + apply andb_true_iff in Ht as [Ht _]. rewrite Ht.
      specialize (IH false true). simpl in IH. lia.
    + specialize (IH inf added). lia.
Qed.

(** A signature line followed by a [try {] line. *)
Lemma add_await_fires (name sig_line try_line : text) (rest : list text)
    (in_function added_await : bool) :
  contains route_params_sig sig_line = true ->
  contains try_open sig_line = false ->
  contains try_open try_line = true ->
  add_await name in_function added_await (sig_line :: try_line :: rest)
  = sig_line :: try_line :: await_line name (indent_of try_line)
      :: add_await name false true rest.
Proof.
  intros Hs Hn Ht. simpl. rewrite Hs, Hn, Ht. simpl.
  now destruct (contains route_params_sig try_line).
Qed.

End AwaitFacts.

(** C5: in the loop, the line that follows a signature line and contains
    [try {] gets the extraction element right after it, indented by two more
    than that line; the loop adds at most one element per signature line;
    and on the example body with the name [id] the line after [  try {]
    reads [    const { id } = await params]. *)
Theorem extraction_line_after_try :
  (forall (name sig_line try_line : text) (rest : list text)
          (in_function added_await : bool),
      Py.contains route_params_sig sig_line = true ->
      Py.contains try_open sig_line = false ->
      Py.contains try_open try_line = true ->
      add_await name in_function added_await (sig_line :: try_line :: rest)
      = sig_line :: try_line
          :: (Py.spaces (indent_of try_line + 2) ++ str "const { " ++ name
                ++ str " } = await params" ++ [NL])
          :: add_await name false true rest) /\
  (forall (name : text) (lines : list text),
      length (add_await name false false lines)
      <= length lines
         + length (filter (Py.contains route_params_sig) lines)) /\
  transform Examples.try_body Examples.id =
  Rewritten (Examples.text_of
    [ "{ params }: RouteParams {";
      "  try {";
      "    const { id } = await params";
      "";
      "    ...";
      "  }";
      "";
      "interface RouteParams {"; "  params: Promise<{"; "    id: string";
      "  }>"; "}";
      "}" ]%string).
Proof.
  split; [|split].
  - intros. now apply AwaitFacts.add_await_fires.
  - intros name lines.
    pose proof (AwaitFacts.add_await_length name lines false false) as H.
    simpl in H. lia.
  - vm_compute. reflexivity.
Qed.

Lemma extraction_line_after_try_example :
  add_await Examples.id false false
    [str "{ params }: RouteParams {"; str "  try {"; str "    ..."]
  = [str "{ params }: RouteParams {"; str "  try {";
     str "    const { id } = await params" ++ [NL]; str "    ..."].
Proof.
  exact (proj1 extraction_line_after_try Examples.id
           (str "{ params }: RouteParams {") (str "  try {")
           [str "    ..."] false false eq_refl eq_refl eq_refl).
Defined.

(* ================================================================= *)
(** ** Step 4: references *)

Module RefFacts.
Import Py PyFacts Lang LangFacts SubFacts NameFacts.

(** A pattern of literals matches its literals. *)
Lemma matches_literals (p : regex) :
  literal p = true -> matches p (literals p).
Proof.
  induction p as [|[l|] p IH]; simpl; intros H.
  - constructor.
  - constructor. now apply IH.
  - discriminate.
Qed.

(** ... and nothing else. *)
Lemma matches_literal_only (p : regex) (w : text) :
  literal p = true -> matches p w -> w = literals p.
Proof.
  intros H Hw. induction Hw as [|l p w Hw IH|ws p w Hws Hw IH]; simpl in *.
  - reflexivity.
  - now rewrite IH.
  - discriminate.
Qed.

(** A prefix without the first character of the pattern is copied. *)
Lemma sub_skip_prefix (p : regex) (r : text) (c : char) (x b : text) :
  first_char p = Some c -> ~ In c x -> sub p r (x ++ b) = x ++ sub p r b.
Proof.
  intros Hc. induction x as [|c' x IH]; intros Hx; [reflexivity|].
  simpl. rewrite sub_nomatch.
  - f_equal. apply IH. intros Hin. apply Hx. now right.
  - destruct (match_at p (c' :: x ++ b)) as [n|] eqn:E; [|reflexivity].
    exfalso. destruct (match_at_sound _ _ _ E) as (w & rest & Hs & _ & Hw).
    destruct (matches_first _ _ _ Hc Hw) as [w' ->].
    injection Hs as ->. apply Hx. now left.
Qed.

Lemma username_separable :
  separable (reference_pattern Examples.username) = true.
Proof. vm_compute. reflexivity. Qed.

End RefFacts.

(** C2, as stated: [params.usernameSuffix] does not stay as it is, it becomes
    [usernameSuffix]. *)
Lemma suffixed_reference_is_rewritten :
  Py.contains (str "params.usernameSuffix")
    (str "const s = params.usernameSuffix") = true /\
  transform (str "const s = params.usernameSuffix") Examples.username
  = Rewritten (interface_code Examples.username
                 ++ str "const s = usernameSuffix").
Proof. split; vm_compute; reflexivity. Qed.

(** C2: with the name [username], Step 4 replaces every occurrence of
    [params.username] by [username] and rewrites the text on either side on
    its own; there is no word boundary, so [params.usernameSuffix] becomes
    [usernameSuffix]. *)
Theorem every_reference_is_rewritten :
  (forall a b : text,
      replace_references Examples.username (a ++ str "params.username" ++ b)
      = replace_references Examples.username a ++ str "username"
          ++ replace_references Examples.username b) /\
  (forall a b : text,
      replace_references Examples.username
        (a ++ str "params.usernameSuffix" ++ b)
      = replace_references Examples.username a ++ str "usernameSuffix"
          ++ replace_references Examples.username b).
Proof.
  assert (H : forall a b : text,
      replace_references Examples.username (a ++ str "params.username" ++ b)
      = replace_references Examples.username a ++ str "username"
          ++ replace_references Examples.username b).
  { intros a b. unfold replace_references.
    apply (SubFacts.sub_occurrence _ _ RefFacts.username_separable).
    apply (RefFacts.matches_literals
             (reference_pattern Examples.username) eq_refl). }
  split; [exact H|]. intros a b.
  change (str "params.usernameSuffix" ++ b)
    with (str "params.username" ++ str "Suffix" ++ b).
  rewrite H. unfold replace_references.
  rewrite (RefFacts.sub_skip_prefix (reference_pattern Examples.username)
             Examples.username 112%N (str "Suffix") b eq_refl).
  - reflexivity.
  - vm_compute. intuition discriminate.
Qed.

(* ================================================================= *)
(** ** What [re.sub] leaves behind *)

Module LeftoverFacts.
Import Py PyFacts Lang LangFacts SubFacts.

Lemma ends_with_app (x y : text) : ends_with y (x ++ y) = true.
Proof. unfold ends_with. rewrite rev_app_distr. apply startswith_app. Qed.

(** The condition [not_entered], on texts. *)
Lemma not_entered_spec (p : regex) (r x t m rest : text) :
  not_entered p r = true ->
  matches p m -> x ++ r ++ t = m ++ rest -> length m <= length x.
Proof.
  unfold not_entered. intros H Hm E.
  apply andb_true_iff in H as [Hk Hc]. rewrite forallb_forall in Hk.
  apply negb_true_iff in Hc.
  destruct (Nat.le_gt_cases (length m) (length x)) as [|Hlt]; [assumption|].
  exfalso. apply app_eq_app in E as [l [[E _]|[E E2]]].
  { rewrite E, length_app in Hlt. lia. }
  assert (Nl : l <> []).
  { intros ->. rewrite E, app_nil_r in Hlt. lia. }
  pose proof (matches_strip _ _ Hm) as K. rewrite E, strip_app in K.
  apply app_eq_app in E2 as [z [[E2 _]|[E2 _]]].
  - (* the match ends inside [r] *)
    specialize (Hk (length l)).
    assert (Hin : In (length l) (seq 1 (length r))).
    { apply in_seq. rewrite E2, length_app.
      destruct l; [congruence | simpl; lia]. }
    apply Hk in Hin. apply negb_true_iff in Hin.
    rewrite E2, firstn_app, firstn_all, Nat.sub_diag in Hin.
    simpl in Hin. rewrite app_nil_r, <- K, ends_with_app in Hin.
    discriminate.
  - (* the match covers [r] *)
    rewrite E2, strip_app, app_assoc in K.
    rewrite <- K, <- app_assoc, contains_app in Hc. discriminate.
Qed.

Section Leftover.

Variable p : regex.
Variable r : text.
Variable c0 : char.
Hypothesis Hfirst : first_char p = Some c0.
Hypothesis Hinside : forall t i,
  i < length r -> match_at p (skipn i r ++ t) = None.
Hypothesis Hentered : not_entered p r = true.

Lemma match_at_not_empty (s : text) : match_at p s <> Some 0.
Proof.
  intros E. destruct (match_at_sound _ _ _ E) as (w & rest & _ & Hl & Hw).
  destruct (matches_first _ _ _ Hfirst Hw) as [w' ->]. discriminate.
Qed.

Lemma match_at_nil : match_at p [] = None.
Proof.
  destruct (match_at p []) as [n|] eqn:E; [|reflexivity].
  destruct (match_at_sound _ _ _ E) as (w & rest & Hs & _ & Hw).
  destruct (matches_first _ _ _ Hfirst Hw) as [w' ->]. discriminate.
Qed.

(** After the substitution the pattern matches nowhere. *)
Theorem sub_leaves_no_match (s : text) : no_match p (sub p r s).
Proof.
  remember (length s) as n eqn:Hn. revert s Hn.
  induction n as [n IH] using lt_wf_ind. intros s Hn.
  destruct s as [|c s].
  { intros i. rewrite sub_nil, skipn_nil. apply match_at_nil. }
  destruct (match_at p (c :: s)) as [[|k]|] eqn:M.
  - now apply match_at_not_empty in M.
  - rewrite (sub_match _ _ _ _ _ M). intros i.
    destruct (Nat.lt_ge_cases i (length r)) as [Hi|Hi].
    + rewrite skipn_app. replace (i - length r) with 0 by lia.
      apply (Hinside _ _ Hi).
    + rewrite skipn_app, (skipn_all2 r) by assumption. simpl.
      apply (IH (length (skipn k s))); [|reflexivity].
      rewrite Hn, length_skipn. simpl. lia.
  - rewrite (sub_nomatch _ _ _ _ M). intros [|i].
    + simpl.
      destruct (sub_first_match p r s) as [->|(u & w & rest & -> & Hw & ->)];
        [assumption|].
      destruct (match_at p (c :: u ++ r ++ sub p r rest)) as [k|] eqn:E;
        [exfalso | reflexivity].
      destruct (match_at_sound _ _ _ E) as (m & rest' & Hs & _ & Hm).
      pose proof (not_entered_spec p r (c :: u) _ m rest' Hentered Hm Hs)
        as Hle.
      change (c :: u ++ r ++ sub p r rest)
        with ((c :: u) ++ r ++ sub p r rest) in Hs.
      apply app_eq_app in Hs as [l [[E1 _]|[E1 _]]].
      * apply (match_at_complete p m (l ++ w ++ rest)) in Hm.
        rewrite app_assoc, <- E1 in Hm. simpl in Hm. congruence.
      * rewrite E1, length_app in Hle. destruct l; [|simpl in Hle; lia].
        rewrite app_nil_r in E1. subst m.
        apply (match_at_complete p (c :: u) (w ++ rest)) in Hm.
        simpl in Hm. congruence.
    + simpl. apply (IH (length s)); [|reflexivity]. rewrite Hn. simpl. lia.
Qed.

End Leftover.

End LeftoverFacts.

(* ================================================================= *)
(** ** Occurrences of another pattern *)

Module ApartFacts.
Import Py PyFacts Lang LangFacts SubFacts.

Lemma no_bridge_spec (k1 k2 x y z : text) :
  no_bridge k1 k2 = true -> k1 = x ++ y -> k2 = y ++ z -> y <> [] -> False.
Proof.
  unfold no_bridge. intros H E1 E2 Ny. rewrite forallb_forall in H.
  specialize (H (length x)).
  assert (Hin : In (length x) (seq 0 (length k1))).
  { apply in_seq. rewrite E1, length_app. destruct y; [congruence|].
    simpl. lia. }
  apply H in Hin. apply negb_true_iff in Hin.
  rewrite E1, skipn_app, skipn_all, Nat.sub_diag in Hin. simpl in Hin.
  rewrite E2, startswith_app in Hin. discriminate.
Qed.

Section Apart.

Variables p q : regex.
Variable r : text.
Hypothesis Hp : separable p = true.
Hypothesis Hq : separable q = true.
Hypothesis Hpq : apart p q = true.

Lemma apart_pq : no_bridge (skeleton p) (skeleton q) = true.
Proof.
  unfold apart in Hpq. now repeat (apply andb_true_iff in Hpq as [Hpq _]).
Qed.

Lemma apart_qp : no_bridge (skeleton q) (skeleton p) = true.
Proof.
  unfold apart in Hpq. do 2 (apply andb_true_iff in Hpq as [Hpq _]).
  now apply andb_true_iff in Hpq as [_ Hpq].
Qed.

Lemma apart_p_in_q : contains (skeleton p) (skeleton q) = false.
Proof.
  unfold apart in Hpq. apply andb_true_iff in Hpq as [Hpq _].
  apply andb_true_iff in Hpq as [_ Hpq]. now apply negb_true_iff.
Qed.

Lemma apart_q_in_p : contains (skeleton q) (skeleton p) = false.
Proof.
  unfold apart in Hpq. apply andb_true_iff in Hpq as [_ Hpq].
  now apply negb_true_iff.
Qed.

(** No match of [p] begins inside a match of [q]. *)
Lemma no_match_inside (w1 w2 b : text) (c : char) :
  matches q (w1 ++ c :: w2) -> match_at p (c :: w2 ++ b) = None.
Proof.
  intros Hw. destruct (match_at p (c :: w2 ++ b)) as [n|] eqn:E;
    [exfalso | reflexivity].
  destruct (match_at_sound _ _ _ E) as (m & rest & Hs & _ & Hm).
  pose proof (matches_strip _ _ Hw) as Kq.
  pose proof (matches_strip _ _ Hm) as Kp.
  change (c :: w2 ++ b) with ((c :: w2) ++ b) in Hs.
  apply app_eq_app in Hs as [l [[E1 _]|[E1 _]]].
  - (* the match of [p] ends inside the match of [q] *)
    rewrite E1, !strip_app, Kp in Kq.
    pose proof apart_p_in_q as H. rewrite <- Kq, contains_app in H.
    discriminate.
  - (* it runs over the end of the match of [q] *)
    rewrite strip_app in Kq. rewrite E1, strip_app in Kp.
    apply (no_bridge_spec _ _ (strip w1) (strip (c :: w2)) (strip l) apart_qp);
      try (symmetry; assumption).
    apply (strip_prefix_nonempty p Hp m (c :: w2) l Hm E1). discriminate.
Qed.

Lemma sub_inside (b : text) : forall w2 w1,
  matches q (w1 ++ w2) -> sub p r (w2 ++ b) = w2 ++ sub p r b.
Proof.
  induction w2 as [|c w2 IH]; intros w1 Hw; [reflexivity|].
  simpl. rewrite sub_nomatch by (now apply (no_match_inside w1)).
  f_equal. apply (IH (w1 ++ [c])). now rewrite <- app_assoc.
Qed.

(** An occurrence of the other pattern is copied, and the text on either
    side is rewritten on its own. *)
Theorem sub_other_occurrence (a w b : text) :
  matches q w -> sub p r (a ++ w ++ b) = sub p r a ++ w ++ sub p r b.
Proof.
  intros Hw. remember (length a) as n eqn:Hn.
  revert a Hn. induction n as [n IH] using lt_wf_ind. intros a Hn.
  destruct a as [|c a]; [simpl; now apply (sub_inside b w [])|].
  destruct (match_at p ((c :: a) ++ w ++ b)) as [[|k]|] eqn:M.
  - apply (match_at_positive p Hp) in M. lia.
  - destruct (match_at_sound _ _ _ M) as (m & rest & Hs & Hl & Hm).
    assert (El : exists l, c :: a = m ++ l /\ rest = l ++ w ++ b).
    { apply app_eq_app in Hs as [l [[E1 E2]|[E1 E2]]]; [now exists l|].
      destruct l as [|x l].
      { exists []. rewrite app_nil_r in E1. simpl in E2.
        now rewrite E1, app_nil_r, E2. }
      exfalso.
      pose proof (matches_strip _ _ Hw) as Kq.
      pose proof (matches_strip _ _ Hm) as Kp.
      apply app_eq_app in E2 as [z [[E2 _]|[E2 _]]].
      - (* the match of [p] ends inside [w] *)
        rewrite E1, strip_app in Kp. rewrite E2, strip_app in Kq.
        apply (no_bridge_spec _ _ (strip (c :: a)) (strip (x :: l)) (strip z)
                 apart_pq); try (symmetry; assumption).
        apply (strip_prefix_nonempty q Hq w (x :: l) z Hw E2). discriminate.
      - (* the match of [p] covers [w] *)
        rewrite E1, E2, !strip_app, Kq in Kp.
        pose proof apart_q_in_p as H. rewrite <- Kp, contains_app in H.
        discriminate. }
    destruct El as (l & Ea & ->).
    assert (Hlt : length l < n).
    { rewrite Hn, Ea, length_app. destruct m; [discriminate|]. simpl. lia. }
    rewrite Ea, <- app_assoc.
    rewrite (sub_word p r Hp m (l ++ w ++ b) Hm), (sub_word p r Hp m l Hm).
    rewrite (IH _ Hlt l eq_refl). now rewrite <- app_assoc.
  - assert (Ma : match_at p (c :: a) = None).
    { destruct (match_at p (c :: a)) as [k|] eqn:E; [|reflexivity].
      destruct (match_at_sound _ _ _ E) as (m & rest & Hs & _ & Hm).
      apply (match_at_complete p m (rest ++ w ++ b)) in Hm.
      rewrite app_assoc, <- Hs in Hm. congruence. }
    simpl in M. simpl. rewrite (sub_nomatch _ _ _ _ M), (sub_nomatch _ _ _ _ Ma).
    simpl. f_equal. apply (IH (length a)); [|reflexivity].
    rewrite Hn. simpl. lia.
Qed.

End Apart.

End ApartFacts.

(* ================================================================= *)
(** ** Step 2: the signature *)

Module SigFacts.
Import Py PyFacts Lang LangFacts SubFacts.

(** A match of the whole text is a word of the pattern. *)
Lemma matches_of_match_at (p : regex) (w : text) :
  match_at p w = Some (length w) -> matches p w.
Proof.
  intros E. destruct (match_at_sound _ _ _ E) as (m & rest & Hs & Hl & Hm).
  rewrite Hs, length_app in Hl. destruct rest; [|simpl in Hl; lia].
  now rewrite Hs, app_nil_r.
Qed.

Lemma id_separable : separable (signature_pattern Examples.id) = true.
Proof. vm_compute. reflexivity. Qed.

Lemma slug_separable : separable (signature_pattern Examples.slug) = true.
Proof. vm_compute. reflexivity. Qed.

Lemma id_slug_apart :
  apart (signature_pattern Examples.id) (signature_pattern Examples.slug)
  = true.
Proof. vm_compute. reflexivity. Qed.

Lemma id_not_entered :
  not_entered (signature_pattern Examples.id) route_params_sig = true.
Proof. vm_compute. reflexivity. Qed.

(** The pattern matches at no position of its replacement, whatever
    follows. *)
Lemma id_not_inside (t : text) (i : nat) :
  i < length route_params_sig ->
  match_at (signature_pattern Examples.id) (skipn i route_params_sig ++ t)
  = None.
Proof.
  intros H.
  do 23 (destruct i as [|i]; [reflexivity|]).
  exfalso. revert H. vm_compute. lia.
Qed.

End SigFacts.

(** C7, as stated: the signature with a space before its first colon is
    the same signature up to white space, and Step 2 leaves it as it is. *)
Lemma spaced_colon_signature_is_kept :
  Lang.strip Examples.spaced_colon_signature
  = Lang.strip Examples.id_signature /\
  replace_signature Examples.id Examples.spaced_colon_signature
  = Examples.spaced_colon_signature /\
  replace_signature Examples.id Examples.id_signature
  = str "{ params }: RouteParams".
Proof. split; [|split]; vm_compute; reflexivity. Qed.

(** C7: with the name [id], every occurrence of the inline signature, with
    any white space (or none) where the shape has a space and none before a
    colon, is replaced by [{ params }: RouteParams] and the text on either
    side is rewritten on its own; after the step the pattern matches
    nowhere; an occurrence of the signature for [slug] is copied as it
    is. *)
Theorem signature_rewrite_precision :
  (forall a w b : text,
      Lang.matches (signature_pattern Examples.id) w ->
      replace_signature Examples.id (a ++ w ++ b)
      = replace_signature Examples.id a ++ str "{ params }: RouteParams"
          ++ replace_signature Examples.id b) /\
  (forall content : text,
      Lang.no_match (signature_pattern Examples.id)
        (replace_signature Examples.id content)) /\
  (forall a w b : text,
      Lang.matches (signature_pattern Examples.slug) w ->
      replace_signature Examples.id (a ++ w ++ b)
      = replace_signature Examples.id a ++ w
          ++ replace_signature Examples.id b) /\
  Lang.matches (signature_pattern Examples.id) Examples.id_signature /\
  Lang.matches (signature_pattern Examples.slug) Examples.slug_signature.
Proof.
  split; [|split; [|split; [|split]]].
  - intros a w b Hw.
    apply (SubFacts.sub_occurrence _ _ SigFacts.id_separable _ _ _ Hw).
  - intros content.
    apply (LeftoverFacts.sub_leaves_no_match
             (signature_pattern Examples.id) route_params_sig 123%N eq_refl
             SigFacts.id_not_inside SigFacts.id_not_entered).
  - intros a w b Hw.
    apply (ApartFacts.sub_other_occurrence _ _ _ SigFacts.id_separable
             SigFacts.slug_separable SigFacts.id_slug_apart _ _ _ Hw).
  - apply SigFacts.matches_of_match_at. vm_compute. reflexivity.
  - apply SigFacts.matches_of_match_at. vm_compute. reflexivity.
Qed.

Lemma signature_rewrite_precision_example :
  Lang.matches (signature_pattern Examples.id)
    (str "{params}:{ params:   {id:string} }") /\
  replace_signature Examples.id
    (str "GET(r, " ++ str "{params}:{ params:   {id:string} }" ++ str ") {")
  = replace_signature Examples.id (str "GET(r, ")
      ++ str "{ params }: RouteParams"
      ++ replace_signature Examples.id (str ") {").
Proof.
  assert (H : Lang.matches (signature_pattern Examples.id)
                (str "{params}:{ params:   {id:string} }"))
    by (apply SigFacts.matches_of_match_at; vm_compute; reflexivity).
  split; [exact H|].
  exact (proj1 signature_rewrite_precision (str "GET(r, ")
           (str "{params}:{ params:   {id:string} }") (str ") {") H).
Defined.

(* ================================================================= *)
(** ** Step 3 without a [try] *)

Module NoTryFacts.
Import Py PyFacts.

Lemma add_await_no_try (name : text) (lines : list text) :
  forall in_function added_await,
  forallb (fun l => negb (contains try_open l)) lines = true ->
  add_await name in_function added_await lines = lines.
Proof.
  induction lines as [|l lines IH]; intros inf added H; [reflexivity|].
  simpl in H. apply andb_true_iff in H as [Hl H].
  apply negb_true_iff in Hl. simpl. rewrite Hl, andb_false_r.
  f_equal. now apply IH.
Qed.

Lemma add_await_no_try_from_signature (name : text) (lines : list text) :
  forall added_await,
  no_try_from_signature lines = true ->
  add_await name false added_await lines = lines.
Proof.
  induction lines as [|l lines IH]; intros added H; [reflexivity|].
  simpl in H. destruct (contains route_params_sig l) eqn:Hs.
  - now apply add_await_no_try.
  - simpl. rewrite Hs. simpl. f_equal. now apply IH.
Qed.

End NoTryFacts.

(** C6, as stated: the signature of the one-line handler is normalised by
    Step 2 and no later line contains [try {], but the signature line itself
    does, and an extraction line is inserted after it. *)
Lemma try_on_the_signature_line_fires :
  Py.split_nl (replace_signature Examples.id
                 (add_interface Examples.id Examples.one_line_handler))
  = map str
      [ "export async function GET(r, { params }: RouteParams) { try {";
        "  return params.id"; "";
        "interface RouteParams {"; "  params: Promise<{"; "    id: string";
        "  }>"; "}";
        "} catch (e) {} }" ]%string /\
  transform Examples.one_line_handler Examples.id =
  Rewritten (Examples.text_of
    [ "export async function GET(r, { params }: RouteParams) { try {";
      "  const { id } = await params"; "";
      "  return id"; "";
      "interface RouteParams {"; "  params: Promise<{"; "    id: string";
      "  }>"; "}";
      "} catch (e) {} }" ]%string).
Proof. split; vm_compute; reflexivity. Qed.

(** The marker need not come from Step 2: a handler that already has it and
    opens with a [try] gets an extraction line, although Step 2 normalises
    only the later handler and no line from there on contains [try {]. *)
Lemma earlier_marker_line_fires :
  Py.split_nl (replace_signature Examples.id
                 (add_interface Examples.id Examples.marked_then_inline))
  = map str
      [ "export async function GET(r, { params }: RouteParams) {";
        "  try {"; "    return 1"; "  } catch (e) {}"; "}";
        "export async function POST(r, { params }: RouteParams) {";
        "  return params.id"; "";
        "interface RouteParams {"; "  params: Promise<{"; "    id: string";
        "  }>"; "}";
        "}" ]%string /\
  transform Examples.marked_then_inline Examples.id =
  Rewritten (Examples.text_of
    [ "export async function GET(r, { params }: RouteParams) {";
      "  try {";
      "    const { id } = await params"; "";
      "    return 1"; "  } catch (e) {}"; "}";
      "export async function POST(r, { params }: RouteParams) {";
      "  return id"; "";
      "interface RouteParams {"; "  params: Promise<{"; "    id: string";
      "  }>"; "}";
      "}" ]%string).
Proof. split; vm_compute; reflexivity. Qed.

(** C6: when, after Step 2, no line from the first line that contains the
    marker [{ params }: RouteParams] on contains [try {] (that line
    included, and whether Step 2 wrote the marker or the input already had
    it), the loop inserts nothing and the rewritten text is the input after
    Steps 1, 2 and 4. *)
Theorem no_try_no_extraction (content name : text) :
  identifier name = true ->
  guard content = false ->
  no_try_from_signature
    (Py.split_nl (replace_signature name (add_interface name content)))
  = true ->
  add_await name false false
    (Py.split_nl (replace_signature name (add_interface name content)))
  = Py.split_nl (replace_signature name (add_interface name content)) /\
  transform content name =
  Rewritten (replace_references name
               (replace_signature name (add_interface name content))).
Proof.
  intros _ Hg H.
  pose proof (NoTryFacts.add_await_no_try_from_signature name _ false H) as E.
  split; [exact E|].
  unfold transform, insert_await. rewrite Hg, E.
  now rewrite PyFacts.join_split_nl.
Qed.

Lemma no_try_no_extraction_plain_handler :
  identifier Examples.id = true /\
  guard Examples.plain_handler = false /\
  no_try_from_signature
    (Py.split_nl (replace_signature Examples.id
                    (add_interface Examples.id Examples.plain_handler)))
  = true /\
  transform Examples.plain_handler Examples.id =
  Rewritten (replace_references Examples.id
               (replace_signature Examples.id
                  (add_interface Examples.id Examples.plain_handler))).
Proof.
  split; [reflexivity|]. split; [reflexivity|].
  split; [vm_compute; reflexivity|].
  apply (no_try_no_extraction Examples.plain_handler Examples.id);
    vm_compute; reflexivity.
Defined.

(* ================================================================= *)
(** ** What [re.sub] keeps *)

Module KeepFacts.
Import Py PyFacts Lang LangFacts SubFacts NameFacts PairFacts RefFacts.

Section Keep.

Variable p : regex.
Variable r : text.
Variable mark : text.
Variable c0 : char.
Hypothesis Hfirst : first_char p = Some c0.
Hypothesis Hout : ~ In c0 mark.
Hypothesis Hcross : forall x y m rest,
  matches p m -> x ++ mark ++ y = m ++ rest -> length m <= length x.

(** A text that no match can begin in or run into stays in the text. *)
Theorem sub_keeps (a b : text) :
  exists a' b', sub p r (a ++ mark ++ b) = a' ++ mark ++ b'.
Proof.
  remember (length a) as n eqn:Hn. revert a Hn.
  induction n as [n IH] using lt_wf_ind. intros a Hn.
  destruct a as [|c a].
  { exists [], (sub p r b). simpl.
    apply (sub_skip_prefix p r c0 mark b Hfirst Hout). }
  assert (Hcopy : (exists a' b', sub p r (a ++ mark ++ b) = a' ++ mark ++ b')
                  -> exists a' b',
                       c :: sub p r (a ++ mark ++ b) = a' ++ mark ++ b').
  { intros (a' & b' & E). exists (c :: a'), b'. now rewrite E. }
  assert (Ha : exists a' b', sub p r (a ++ mark ++ b) = a' ++ mark ++ b').
  { apply (IH (length a)); [|reflexivity]. rewrite Hn. simpl. lia. }
  destruct (match_at p ((c :: a) ++ mark ++ b)) as [[|k]|] eqn:M.
  - simpl in M. simpl. rewrite (sub_empty_match _ _ _ _ M). now apply Hcopy.
  - destruct (match_at_sound _ _ _ M) as (m & rest & Hs & Hl & Hm).
    pose proof (Hcross _ _ _ _ Hm Hs) as Hle.
    assert (El : exists l, c :: a = m ++ l /\ rest = l ++ mark ++ b).
    { apply app_eq_app in Hs as [l [[E1 E2]|[E1 E2]]]; [now exists l|].
      rewrite E1, length_app in Hle. destruct l; [|simpl in Hle; lia].
      exists []. rewrite app_nil_r in E1. simpl in E2.
      now rewrite E1, app_nil_r, E2. }
    destruct El as (l & Ea & ->).
    simpl in M. simpl. rewrite (sub_match _ _ _ _ _ M).
    assert (Es : skipn k (a ++ mark ++ b) = l ++ mark ++ b).
    { change (skipn k (a ++ mark ++ b))
        with (skipn (S k) ((c :: a) ++ mark ++ b)).
      rewrite Ea, <- app_assoc, <- Hl.
      now rewrite skipn_app, skipn_all, Nat.sub_diag. }
    rewrite Es.
    destruct (IH (length l)) with (a := l) as (a' & b' & E);
      [|reflexivity|].
    + rewrite Hn, Ea, length_app. destruct m; [discriminate|]. simpl. lia.
    + exists (r ++ a'), b'. now rewrite E, <- app_assoc.
  - simpl in M. simpl. rewrite (sub_nomatch _ _ _ _ M). now apply Hcopy.
Qed.

End Keep.

(** *** The guard line and the two patterns *)

Lemma guard_line_split :
  guard_line = (NL :: str "interfac") ++ 101%N :: 32%N :: str "RouteParams".
Proof. reflexivity. Qed.

Ltac invert_matches :=
  repeat match goal with
         | H : matches (_ :: _) _ |- _ => inversion H; clear H; subst
         | H : matches [] _ |- _ => inversion H; clear H; subst
         end.

Ltac literal_form :=
  repeat match goal with
         | |- context [str ?s] =>
             let v := eval vm_compute in (str s) in change (str s) with v
         end.

(** In a signature white space comes after a brace, a colon, [params] or
    [string], never after an [e]. *)
Lemma signature_no_e_space (name m : text) :
  identifier name = true -> matches (signature_pattern name) m ->
  no_pair 101%N 32%N false m = true.
Proof.
  intros Hn Hm. unfold signature_pattern in Hm. invert_matches.
  literal_form.
  repeat (cbn [app no_pair N.eqb Pos.eqb negb andb];
          first [ rewrite no_pair_spaces by (assumption || reflexivity)
                | rewrite (no_pair_name 101%N 32%N 58%N) by
                    (assumption || reflexivity) ]).
  reflexivity.
Qed.

Lemma signature_last (name : text) :
  last_char (signature_pattern name) = Some 125%N.
Proof. reflexivity. Qed.

(** No match of the signature pattern runs into the guard line. *)
Lemma signature_not_into_guard (name x y m rest : text) :
  identifier name = true ->
  matches (signature_pattern name) m ->
  x ++ guard_line ++ y = m ++ rest -> length m <= length x.
Proof.
  intros Hn Hm E.
  destruct (Nat.le_gt_cases (length m) (length x)) as [|Hlt]; [assumption|].
  exfalso. apply app_eq_app in E as [l [[E _]|[E E2]]].
  { rewrite E, length_app in Hlt. lia. }
  assert (Nl : l <> []).
  { intros ->. rewrite E, app_nil_r in Hlt. lia. }
  apply app_eq_app in E2 as [z [[E2 _]|[E2 _]]].
  - (* the match ends inside the guard line: it would end with one of its
       characters, and it ends with a brace *)
    destruct (matches_last _ _ _ (signature_last name) Hm) as [m' Em].
    destruct (@exists_last _ l Nl) as (l' & c & El).
    rewrite E, El, app_assoc in Em. apply app_inj_tail in Em as [_ ->].
    assert (Hin : In 125%N guard_line).
    { rewrite E2, El. apply in_or_app. left. apply in_or_app. right.
      now left. }
    revert Hin. vm_compute. intuition discriminate.
  - (* the match covers the guard line: an [e] followed by a space *)
    pose proof (signature_no_e_space name m Hn Hm) as H.
    rewrite E, E2, guard_line_split in H.
    replace (x ++ ((NL :: str "interfac") ++ 101%N :: 32%N
                     :: str "RouteParams") ++ z)
      with ((x ++ NL :: str "interfac") ++ 101%N :: 32%N
              :: (str "RouteParams" ++ z)) in H
      by (rewrite <- !app_assoc; reflexivity).
    rewrite no_pair_at in H. discriminate.
Qed.

(** No match of the reference pattern runs into the guard line: it has no
    newline. *)
Lemma reference_not_into_guard (name x y m rest : text) :
  identifier name = true ->
  matches (reference_pattern name) m ->
  x ++ guard_line ++ y = m ++ rest -> length m <= length x.
Proof.
  intros Hn Hm E.
  destruct (Nat.le_gt_cases (length m) (length x)) as [|Hlt]; [assumption|].
  exfalso. apply app_eq_app in E as [l [[E _]|[E E2]]].
  { rewrite E, length_app in Hlt. lia. }
  destruct l as [|c l].
  { rewrite E, app_nil_r in Hlt. lia. }
  injection E2 as <- _.
  apply (matches_literal_only (reference_pattern name) _ eq_refl) in Hm.
  rewrite BlockFacts.literals_reference in Hm.
  assert (Hin : In NL (str "params." ++ name)).
  { rewrite <- Hm, E. apply in_or_app. right. now left. }
  apply in_app_or in Hin as [Hin|Hin].
  - revert Hin. vm_compute. intuition discriminate.
  - now apply (name_without NL name Hn eq_refl).
Qed.

Lemma replace_signature_keeps_guard (name a b : text) :
  identifier name = true ->
  exists a' b',
    replace_signature name (a ++ guard_line ++ b) = a' ++ guard_line ++ b'.
Proof.
  intros Hn. unfold replace_signature.
  apply (sub_keeps (signature_pattern name) route_params_sig guard_line
           123%N eq_refl).
  - vm_compute. intuition discriminate.
  - intros x y m rest. now apply signature_not_into_guard.
Qed.

Lemma replace_references_keeps_guard (name a b : text) :
  identifier name = true ->
  exists a' b',
    replace_references name (a ++ guard_line ++ b) = a' ++ guard_line ++ b'.
Proof.
  intros Hn. unfold replace_references.
  apply (sub_keeps (reference_pattern name) name guard_line 112%N eq_refl).
  - vm_compute. intuition discriminate.
  - intros x y m rest. now apply reference_not_into_guard.
Qed.

End KeepFacts.

(* ================================================================= *)
(** ** The guard after a run *)

Module GuardFacts.
Import Py PyFacts LoopFacts KeepFacts.

Lemma add_await_app (name : text) (l1 l2 : list text) :
  forall in_function added_await,
  exists in_function' added_await',
    add_await name in_function added_await (l1 ++ l2)
    = add_await name in_function added_await l1
        ++ add_await name in_function' added_await' l2.
Proof.
  induction l1 as [|l l1 IH]; intros inf added.
  - now exists inf, added.
  - simpl.
    destruct ((if contains route_params_sig l then true else inf)
              && negb (if contains route_params_sig l then false else added)
              && contains try_open l).
    + destruct (IH false true) as (i & a & ->). now exists i, a.
    + destruct (IH (if contains route_params_sig l then true else inf)
                   (if contains route_params_sig l then false else added))
        as (i & a & ->).
      now exists i, a.
Qed.

Lemma add_await_head (name l : text) (ls : list text)
    (in_function added_await : bool) :
  exists t, add_await name in_function added_await (l :: ls) = l :: t.
Proof.
  simpl.
  destruct ((if contains route_params_sig l then true else in_function)
            && negb (if contains route_params_sig l then false
                     else added_await)
            && contains try_open l); eexists; reflexivity.
Qed.

Lemma split_nl_prefix (g b : text) :
  ~ In NL g -> exists l0 ls, split_nl (g ++ b) = (g ++ l0) :: ls.
Proof.
  induction g as [|c g IH]; intros H.
  - simpl. destruct (split_nl b) as [|l0 ls] eqn:E.
    + now apply split_nl_nonempty in E.
    + now exists l0, ls.
  - simpl. destruct (N.eqb_spec c NL) as [->|_].
    + exfalso. apply H. now left.
    + destruct IH as (l0 & ls & ->); [intros Hin; apply H; now right|].
      now exists l0, ls.
Qed.

Lemma join_nl_head (x : text) (ls : list text) :
  exists t, join_nl (x :: ls) = x ++ t.
Proof.
  destruct ls as [|l ls].
  - exists []. simpl. now rewrite app_nil_r.
  - eexists. reflexivity.
Qed.

(** The loop keeps a line that starts with the guard text, and it stays the
    start of a line. *)
Lemma insert_await_keeps_guard (name a b : text) :
  exists a' b',
    insert_await name (a ++ guard_line ++ b) = a' ++ guard_line ++ b'.
Proof.
  unfold insert_await, guard_line.
  change (a ++ (NL :: guard_text) ++ b) with (a ++ NL :: (guard_text ++ b)).
  rewrite split_nl_app.
  destruct (split_nl_prefix guard_text b) as (l0 & ls & ->).
  { vm_compute. intuition discriminate. }
  destruct (add_await_app name (split_nl a) ((guard_text ++ l0) :: ls)
              false false) as (i' & a' & ->).
  destruct (add_await_head name (guard_text ++ l0) ls i' a') as (t & Et).
  unfold text in *. rewrite Et.
  destruct (split_nl a) as [|la lsa] eqn:Ea.
  { now apply split_nl_nonempty in Ea. }
  destruct (add_await_head name la lsa false false) as (ta & ->).
  rewrite join_nl_app by discriminate.
  destruct (join_nl_head (guard_text ++ l0) t) as (t' & Et').
  unfold text in *. rewrite Et'.
  exists (join_nl (la :: ta)), (l0 ++ t'). now rewrite <- app_assoc.
Qed.

Lemma interface_code_guard (name : text) :
  exists b, interface_code name = guard_line ++ b.
Proof. eexists. unfold interface_code, interface_head, guard_line.
  simpl. reflexivity.
Qed.

Lemma add_interface_guard (name content : text) :
  exists a b, add_interface name content = a ++ guard_line ++ b.
Proof.
  unfold add_interface. destruct (interface_code_guard name) as (b & ->).
  eexists. eexists. rewrite <- app_assoc. reflexivity.
Qed.

Lemma guard_line_hits (a b : text) : guard (a ++ guard_line ++ b) = true.
Proof.
  unfold guard, guard_line.
  change (a ++ (NL :: guard_text) ++ b) with (a ++ [NL] ++ guard_text ++ b).
  rewrite app_assoc. apply contains_app.
Qed.

(** A rewritten text hits the guard. *)
Lemma rewritten_hits_guard (name content : text) :
  identifier name = true ->
  guard (replace_references name
           (insert_await name
              (replace_signature name (add_interface name content)))) = true.
Proof.
  intros Hn.
  destruct (add_interface_guard name content) as (a1 & b1 & ->).
  destruct (replace_signature_keeps_guard name a1 b1 Hn) as (a2 & b2 & ->).
  destruct (insert_await_keeps_guard name a2 b2) as (a3 & b3 & ->).
  destruct (replace_references_keeps_guard name a3 b3 Hn) as (a4 & b4 & ->).
  apply guard_line_hits.
Qed.

End GuardFacts.

(** C3: whatever the first run did, a second run on the text it left is
    skipped, and so leaves that text as it is. *)
Theorem second_run_is_skipped (content name : text) :
  identifier name = true ->
  transform (text_after content name) name = Skipped /\
  text_after (text_after content name) name = text_after content name.
Proof.
  intros Hn.
  assert (H : transform (text_after content name) name = Skipped).
  { unfold text_after, transform. destruct (guard content) eqn:G.
    - now rewrite G.
    - now rewrite GuardFacts.rewritten_hits_guard. }
  split; [exact H|]. unfold text_after at 1. now rewrite H.
Qed.

Lemma second_run_is_skipped_try_body :
  identifier Examples.id = true /\
  transform (text_after Examples.try_body Examples.id) Examples.id = Skipped.
Proof.
  split; [reflexivity|].
  apply (second_run_is_skipped Examples.try_body Examples.id). reflexivity.
Defined.

(* ================================================================= *)
(** ** Step 4 line by line *)

Module LineFacts.
Import Py PyFacts Lang LangFacts SubFacts NameFacts.

Lemma startswith_app_split (l k s : text) :
  startswith (l ++ k) s = startswith l s && startswith k (skipn (length l) s).
Proof.
  revert s. induction l as [|c l IH]; intros s; [reflexivity|].
  destruct s as [|x s]; [reflexivity|]. simpl.
  now rewrite IH, andb_assoc.
Qed.

(** A pattern of literals matches where the text starts with them. *)
Lemma match_at_literal (p : regex) : forall s,
  literal p = true ->
  match_at p s = if startswith (literals p) s
                 then Some (length (literals p)) else None.
Proof.
  induction p as [|[l|] p IH]; intros s H; simpl in H.
  - reflexivity.
  - rewrite lit_step. cbn [literals].
    rewrite startswith_app_split, length_app.
    destruct (startswith l s); [|reflexivity].
    rewrite (IH _ H). simpl.
    now destruct (startswith (literals p) (skipn (length l) s)).
  - discriminate.
Qed.

Lemma startswith_before_nl (k a b : text) :
  ~ In NL k -> startswith k (a ++ NL :: b) = startswith k a.
Proof.
  revert a. induction k as [|c k IH]; intros a H; [reflexivity|].
  destruct a as [|x a]; simpl.
  - destruct (N.eqb_spec c NL) as [->|_]; [|reflexivity].
    exfalso. apply H. now left.
  - rewrite IH; [reflexivity | intros Hin; apply H; now right].
Qed.

Section Literal.

Variable p : regex.
Variable r : text.
Hypothesis Hlit : literal p = true.
Hypothesis Hp : ~ In NL (literals p).
Hypothesis Hr : ~ In NL r.

Lemma match_at_before_nl (a b : text) :
  match_at p (a ++ NL :: b) = match_at p a.
Proof.
  now rewrite !match_at_literal, startswith_before_nl by assumption.
Qed.

(** The substitution works on each side of a newline. *)
Lemma sub_over_nl (a b : text) :
  sub p r (a ++ NL :: b) = sub p r a ++ NL :: sub p r b.
Proof.
  remember (length a) as n eqn:Hn. revert a Hn.
  induction n as [n IH] using lt_wf_ind. intros a Hn.
  pose proof (match_at_before_nl a b) as E.
  destruct a as [|c a].
  - simpl in *. destruct (match_at p []) as [[|k]|] eqn:M.
    + now rewrite (sub_empty_match _ _ _ _ E).
    + rewrite match_at_literal in M by assumption.
      destruct (startswith (literals p) []) eqn:S0; [|discriminate].
      apply startswith_length in S0. injection M as M. simpl in S0. lia.
    + now rewrite (sub_nomatch _ _ _ _ E).
  - simpl in *. destruct (match_at p (c :: a)) as [[|k]|] eqn:M.
    + rewrite (sub_empty_match _ _ _ _ E), (sub_empty_match _ _ _ _ M).
      simpl. f_equal. apply (IH (length a)); [|reflexivity].
      rewrite Hn. simpl. lia.
    + rewrite (sub_match _ _ _ _ _ E), (sub_match _ _ _ _ _ M).
      assert (Hk : k <= length a).
      { rewrite match_at_literal in M by assumption.
        destruct (startswith (literals p) (c :: a)) eqn:S0; [|discriminate].
        apply startswith_length in S0. injection M as M. simpl in S0. lia. }
      rewrite skipn_app. replace (k - length a) with 0 by lia. simpl.
      rewrite <- app_assoc. f_equal.
      apply (IH (length (skipn k a))); [|reflexivity].
      rewrite Hn, length_skipn. simpl. lia.
    + rewrite (sub_nomatch _ _ _ _ E), (sub_nomatch _ _ _ _ M).
      simpl. f_equal. apply (IH (length a)); [|reflexivity].
      rewrite Hn. simpl. lia.
Qed.

Lemma sub_from_in (c : char) : forall s k,
  In c (sub_from p r k s) -> In c s \/ In c r.
Proof.
  induction s as [|x s IH]; intros k; simpl; [tauto|].
  destruct k as [|k].
  - destruct (match_at p (x :: s)) as [[|n]|].
    + intros [->|H]; [left; now left|]. destruct (IH _ H); tauto.
    + intros H. apply in_app_or in H as [H|H]; [tauto|].
      destruct (IH _ H); tauto.
    + intros [->|H]; [left; now left|]. destruct (IH _ H); tauto.
  - intros H. destruct (IH _ H); tauto.
Qed.

Lemma sub_line (l : text) : ~ In NL l -> ~ In NL (sub p r l).
Proof.
  intros H Hin. apply sub_from_in in Hin as [Hin|Hin]; contradiction.
Qed.

Lemma sub_join_nl (ls : list text) :
  ls <> [] -> sub p r (join_nl ls) = join_nl (map (sub p r) ls).
Proof.
  induction ls as [|l ls IH]; intros H; [congruence|].
  destruct ls as [|l' ls]; [reflexivity|].
  rewrite join_nl_cons by discriminate.
  rewrite sub_over_nl, IH by discriminate.
  reflexivity.
Qed.

Lemma flat_map_lines (ls : list text) :
  (forall l, In l ls -> ~ In NL l) -> flat_map split_nl ls = ls.
Proof.
  induction ls as [|l ls IH]; intros H; [reflexivity|].
  simpl. rewrite split_nl_line by (apply H; now left).
  simpl. f_equal. apply IH. intros l' Hl'. apply H. now right.
Qed.

(** The lines of the rewritten text are the rewritten lines. *)
Lemma split_nl_sub (s : text) :
  split_nl (sub p r s) = map (sub p r) (split_nl s).
Proof.
  rewrite <- (join_split_nl s) at 1.
  rewrite sub_join_nl by apply split_nl_nonempty.
  rewrite split_join_nl.
  - apply flat_map_lines. intros l Hl. apply in_map_iff in Hl as (l' & <- & Hl').
    apply sub_line. now apply (split_nl_no_NL s).
  - pose proof (split_nl_nonempty s). destruct (split_nl s); [congruence|].
    discriminate.
Qed.

End Literal.

End LineFacts.

(* ================================================================= *)
(** ** The line after the extraction line *)

Module ExtraLineFacts.
Import Py PyFacts Lang LangFacts SubFacts NameFacts LineFacts.

(** The extraction element without its newline. *)
Lemma await_line_text (name : text) (k : nat) :
  await_line name k
  = (spaces (k + 2) ++ str "const { " ++ name ++ str " } = await params")
      ++ [NL].
Proof. unfold await_line. now rewrite <- !app_assoc. Qed.

(** A character that is neither a space, nor of a name, nor of the literal
    parts is not in the extraction line. *)
Lemma await_text_without (c : char) (name : text) (k : nat) :
  identifier name = true -> ident_char c = false -> c <> SP ->
  ~ In c (str "const { ") -> ~ In c (str " } = await params") ->
  ~ In c (spaces (k + 2) ++ str "const { " ++ name
            ++ str " } = await params").
Proof.
  intros Hn Hc Hs H1 H2 Hin.
  apply in_app_or in Hin as [Hin|Hin].
  { apply repeat_spec in Hin. congruence. }
  apply in_app_or in Hin as [Hin|Hin]; [contradiction|].
  apply in_app_or in Hin as [Hin|Hin]; [|contradiction].
  now apply (name_without c name Hn Hc).
Qed.

Lemma await_text_no_nl (name : text) (k : nat) :
  identifier name = true ->
  ~ In NL (spaces (k + 2) ++ str "const { " ++ name
             ++ str " } = await params").
Proof.
  intros Hn. apply await_text_without; try assumption; try reflexivity;
    try discriminate; vm_compute; intuition discriminate.
Qed.

Lemma await_text_no_dot (name : text) (k : nat) :
  identifier name = true ->
  ~ In 46%N (spaces (k + 2) ++ str "const { " ++ name
               ++ str " } = await params").
Proof.
  intros Hn. apply await_text_without; try assumption; try reflexivity;
    try discriminate; vm_compute; intuition discriminate.
Qed.

(** The extraction line has no reference to rewrite. *)
Lemma await_text_fixed (name : text) (k : nat) :
  identifier name = true ->
  replace_references name
    (spaces (k + 2) ++ str "const { " ++ name ++ str " } = await params")
  = spaces (k + 2) ++ str "const { " ++ name ++ str " } = await params".
Proof.
  intros Hn. apply sub_no_match. apply no_match_count with (c := 46%N).
  rewrite (count_absent _ _ (await_text_no_dot name k Hn)).
  rewrite BlockFacts.literals_reference, count_app.
  change (count 46%N (str "params.")) with 1. lia.
Qed.

Lemma reference_no_nl (name : text) :
  identifier name = true -> ~ In NL (literals (reference_pattern name)).
Proof.
  intros Hn. rewrite BlockFacts.literals_reference. intros Hin.
  apply in_app_or in Hin as [Hin|Hin].
  - revert Hin. vm_compute. intuition discriminate.
  - now apply (name_without NL name Hn eq_refl).
Qed.

Lemma split_nl_replace_references (name s : text) :
  identifier name = true ->
  split_nl (replace_references name s)
  = map (replace_references name) (split_nl s).
Proof.
  intros Hn. unfold replace_references.
  apply (split_nl_sub (reference_pattern name) name eq_refl).
  - now apply reference_no_nl.
  - now apply (name_without NL name Hn).
Qed.

End ExtraLineFacts.

(** C9: an extraction element in [new_lines] becomes two lines of the
    output: the extraction line and, right after it, an empty line; the
    lines before and after are those of the other elements, with their
    references rewritten. *)
Theorem extraction_line_is_followed_by_empty_line
    (content name : text) (pre post : list text) (k : nat) :
  identifier name = true ->
  guard content = false ->
  add_await name false false
    (Py.split_nl (replace_signature name (add_interface name content)))
  = pre ++ await_line name k :: post ->
  Py.split_nl (text_after content name)
  = map (replace_references name) (flat_map Py.split_nl pre)
    ++ [ Py.spaces (k + 2) ++ str "const { " ++ name
           ++ str " } = await params";
         [] ]
    ++ map (replace_references name) (flat_map Py.split_nl post).
Proof.
  intros Hn Hg E.
  unfold text_after, transform, insert_await. rewrite Hg, E.
  rewrite ExtraLineFacts.split_nl_replace_references by assumption.
  rewrite PyFacts.split_join_nl by (destruct pre; discriminate).
  rewrite flat_map_app, map_app. f_equal.
  cbn [flat_map]. rewrite map_app. f_equal.
  rewrite ExtraLineFacts.await_line_text, PyFacts.split_nl_app.
  rewrite PyFacts.split_nl_line
    by now apply ExtraLineFacts.await_text_no_nl.
  cbn [app map Py.split_nl].
  now rewrite ExtraLineFacts.await_text_fixed.
Qed.

Lemma extraction_line_is_followed_by_empty_line_try_body :
  identifier Examples.id = true /\
  guard Examples.try_body = false /\
  Py.split_nl (text_after Examples.try_body Examples.id)
  = map (replace_references Examples.id)
      (flat_map Py.split_nl [str "{ params }: RouteParams {"; str "  try {"])
    ++ [ Py.spaces (2 + 2) ++ str "const { " ++ Examples.id
           ++ str " } = await params";
         [] ]
    ++ map (replace_references Examples.id)
         (flat_map Py.split_nl
            (map str [ "    ..."; "  }"; ""; "interface RouteParams {";
                       "  params: Promise<{"; "    id: string"; "  }>"; "}";
                       "}" ]%string)).
Proof.
  split; [reflexivity|]. split; [reflexivity|].
  apply (extraction_line_is_followed_by_empty_line Examples.try_body
           Examples.id
           [str "{ params }: RouteParams {"; str "  try {"]
           (map str [ "    ..."; "  }"; ""; "interface RouteParams {";
                      "  params: Promise<{"; "    id: string"; "  }>"; "}";
                      "}" ]%string)
           2);
    vm_compute; reflexivity.
Defined.

(* ================================================================= *)
(** ** Step 1: the insertion point in general *)

Module PlaceFacts.
Import Py PyFacts.

(** The first blank line is found where the text before it has none. *)
Lemma find_blank_line (x rest : text) : forall i,
  contains [NL; NL] (x ++ [NL]) = false ->
  find_from [NL; NL] (x ++ NL :: NL :: rest) i = (i + Z.of_nat (length x))%Z.
Proof.
  induction x as [|c x IH]; intros i H.
  - simpl. lia.
  - assert (Hx : contains [NL; NL] (x ++ [NL]) = false).
    { simpl in H. apply orb_false_iff in H as [_ H]. exact H. }
    assert (Hs : startswith [NL; NL] ((c :: x) ++ NL :: NL :: rest) = false).
    { apply not_true_is_false. intros Hs.
      apply startswith_iff in Hs as [r Hr]. simpl in Hr.
      injection Hr as -> Hr.
      assert (Hc : contains [NL; NL] ((NL :: x) ++ [NL]) = true).
      { apply contains_iff. exists []. destruct x as [|c' x].
        - now exists [].
        - injection Hr as -> _. now exists (x ++ [NL]). }
      congruence. }
    change (find_from [NL; NL] ((c :: x) ++ NL :: NL :: rest) i)
      with (if startswith [NL; NL] ((c :: x) ++ NL :: NL :: rest) then i
            else find_from [NL; NL] (x ++ NL :: NL :: rest) (i + 1)%Z).
    rewrite Hs, (IH _ Hx). simpl length. lia.
Qed.

(** Without a blank line nothing is found. *)
Lemma find_no_blank_line (s : text) : forall i,
  contains [NL; NL] s = false -> find_from [NL; NL] s i = (-1)%Z.
Proof.
  induction s as [|c s IH]; intros i H.
  - reflexivity.
  - simpl in H. apply orb_false_iff in H as [Hs H].
    change (find_from [NL; NL] (c :: s) i)
      with (if startswith [NL; NL] (c :: s) then i
            else find_from [NL; NL] s (i + 1)%Z).
    simpl startswith. rewrite Hs. now apply IH.
Qed.

Lemma startswith_single (c : char) (l : text) :
  startswith [NL] (c :: l) = (NL =? c)%N.
Proof. cbn [startswith]. apply andb_true_r. Qed.

Lemma rfind_from_cons (c : char) (l : text) (i : Z) :
  rfind_from [NL] (c :: l) i
  = if (0 <=? rfind_from [NL] l (i + 1))%Z then rfind_from [NL] l (i + 1)%Z
    else if (NL =? c)%N then i else (-1)%Z.
Proof. cbn [rfind_from]. now rewrite startswith_single. Qed.

Lemma rfind_from_absent (l : text) : forall i,
  ~ In NL l -> rfind_from [NL] l i = (-1)%Z.
Proof.
  induction l as [|c l IH]; intros i H; [reflexivity|].
  rewrite rfind_from_cons, IH by (intros Hin; apply H; now right).
  change (0 <=? -1)%Z with false. cbv iota.
  destruct (N.eqb_spec NL c) as [<-|_]; [|reflexivity].
  exfalso. apply H. now left.
Qed.

(** The last newline is the one before the last line. *)
Lemma rfind_last_newline (a l : text) : forall i,
  (0 <= i)%Z -> ~ In NL l ->
  rfind_from [NL] (a ++ NL :: l) i = (i + Z.of_nat (length a))%Z.
Proof.
  induction a as [|c a IH]; intros i Hi H.
  - cbn [app]. rewrite rfind_from_cons, rfind_from_absent by assumption.
    change (0 <=? -1)%Z with false. cbv iota. rewrite N.eqb_refl.
    simpl length. lia.
  - cbn [app]. rewrite rfind_from_cons, IH by (assumption || lia).
    destruct (Z.leb_spec 0 (i + 1 + Z.of_nat (length a))); [|lia].
    simpl length. lia.
Qed.

Lemma clamp_inside (k len : nat) :
  k <= len -> clamp (Z.of_nat k) (Z.of_nat len) = Z.of_nat k.
Proof.
  intros H. unfold clamp. destruct (Z.ltb_spec (Z.of_nat k) 0); lia.
Qed.

Lemma slice_prefix (s : text) (k : nat) :
  k <= length s -> slice s 0 (Z.of_nat k) = firstn k s.
Proof.
  intros H. unfold slice. rewrite clamp_inside by assumption.
  change (clamp 0 (Z.of_nat (length s))) with (clamp (Z.of_nat 0) (Z.of_nat (length s))).
  rewrite clamp_inside by lia. simpl. now rewrite Nat.sub_0_r, Nat2Z.id.
Qed.

Lemma slice_to_at (s : text) (k : nat) :
  k <= length s -> slice_to s (Z.of_nat k) = firstn k s.
Proof.
  intros H. unfold slice_to. now rewrite clamp_inside, Nat2Z.id.
Qed.

Lemma slice_from_at (s : text) (k : nat) :
  k <= length s -> slice_from s (Z.of_nat k) = skipn k s.
Proof.
  intros H. unfold slice_from. now rewrite clamp_inside, Nat2Z.id.
Qed.

(** [s.rfind('\n', 0, k)] for a [k] inside the text. *)
Lemma rfind_prefix (s : text) (k : nat) :
  k <= length s ->
  rfind [NL] s 0 (Z.of_nat k) = rfind_from [NL] (firstn k s) 0.
Proof.
  intros H. unfold rfind. rewrite slice_prefix by assumption.
  rewrite clamp_inside by assumption.
  change (clamp 0 (Z.of_nat (length s))) with (clamp (Z.of_nat 0) (Z.of_nat (length s))).
  rewrite clamp_inside by lia.
  destruct (Z.ltb_spec (Z.of_nat k) (Z.of_nat 0)); [lia | reflexivity].
Qed.

(** [s.rfind('\n', 0, -1)]: the search leaves the last character out. *)
Lemma rfind_all_but_last (s : text) :
  rfind [NL] s 0 (-1) = rfind_from [NL] (firstn (length s - 1) s) 0.
Proof.
  assert (C0 : clamp 0 (Z.of_nat (length s)) = 0%Z).
  { unfold clamp. change (0 <? 0)%Z with false. cbv iota. lia. }
  assert (C1 : clamp (-1) (Z.of_nat (length s)) = Z.of_nat (length s - 1)).
  { unfold clamp. change (-1 <? 0)%Z with true. cbv iota. lia. }
  unfold rfind, slice. rewrite C0, C1.
  destruct (Z.ltb_spec (Z.of_nat (length s - 1)) 0); [lia|].
  rewrite Nat2Z.id. change (Z.to_nat 0) with 0.
  now rewrite Nat.sub_0_r.
Qed.

End PlaceFacts.

Module PlaceCases.
Import Py PyFacts PlaceFacts.

Lemma no_blank_line_in_line (l : text) :
  ~ In NL l -> contains [NL; NL] (l ++ [NL]) = false.
Proof.
  intros H. apply not_true_is_false. intros Hc.
  apply contains_iff in Hc as (a & b & E).
  assert (Hl : length (l ++ [NL]) = length (a ++ [NL; NL] ++ b))
    by now rewrite E.
  rewrite !length_app in Hl. simpl in Hl.
  apply app_eq_app in E as [z [[E1 E2]|[E1 E2]]].
  - destruct z as [|c z]; [simpl in E2; discriminate|].
    injection E2 as <- E2. apply H. rewrite E1. apply in_or_app. right.
    now left.
  - destruct z as [|c z].
    + simpl in E2. discriminate.
    + injection E2 as -> E2. destruct z; discriminate.
Qed.

(** The insertion, once [import_section_end] is known to be the index of a
    newline. *)
Lemma add_interface_after (name a b : text) :
  import_section_end (a ++ NL :: b) = Z.of_nat (length a) ->
  add_interface name (a ++ NL :: b) = a ++ NL :: interface_code name ++ b.
Proof.
  intros E. unfold add_interface. rewrite E.
  replace (Z.of_nat (length a) + 1)%Z with (Z.of_nat (length (a ++ [NL])))
    by (rewrite length_app; simpl; lia).
  assert (Hle : length (a ++ [NL]) <= length (a ++ NL :: b)).
  { rewrite !length_app. simpl. lia. }
  rewrite slice_to_at, slice_from_at by assumption.
  replace (a ++ NL :: b) with ((a ++ [NL]) ++ b)
    by (now rewrite <- app_assoc).
  rewrite firstn_app, firstn_all, Nat.sub_diag, skipn_app, skipn_all,
    Nat.sub_diag.
  simpl. now rewrite app_nil_r, <- app_assoc.
Qed.

(** The insertion when there is no newline to insert after. *)
Lemma add_interface_front (name content : text) :
  import_section_end content = (-1)%Z ->
  add_interface name content = interface_code name ++ content.
Proof.
  intros E. unfold add_interface. rewrite E.
  change (-1 + 1)%Z with (Z.of_nat 0).
  now rewrite slice_to_at, slice_from_at by lia.
Qed.

End PlaceCases.

(** X1: when the text before the first blank line has a newline, the block
    is inserted after the last newline before the line that the blank line
    follows: it lands in front of that line, not behind it. *)
Theorem block_goes_before_the_line_above_the_blank_line
    (name a l rest : text) :
  Py.contains [NL; NL] (a ++ NL :: l ++ [NL]) = false ->
  ~ In NL l ->
  add_interface name (a ++ NL :: l ++ NL :: NL :: rest)
  = a ++ NL :: interface_code name ++ l ++ NL :: NL :: rest.
Proof.
  intros Hb Hl. apply PlaceCases.add_interface_after.
  unfold import_section_end, Py.find.
  replace (a ++ NL :: l ++ NL :: NL :: rest)
    with ((a ++ NL :: l) ++ NL :: NL :: rest)
    by (now rewrite <- app_assoc).
  rewrite PlaceFacts.find_blank_line
    by (now rewrite <- app_assoc).
  rewrite Z.add_0_l, PlaceFacts.rfind_prefix
    by (rewrite !length_app; simpl; lia).
  rewrite firstn_app, firstn_all, Nat.sub_diag. simpl firstn.
  rewrite app_nil_r, PlaceFacts.rfind_last_newline by (assumption || lia).
  destruct (Z.eqb_spec (0 + Z.of_nat (length a)) (-1)); lia.
Qed.

Lemma block_goes_before_the_line_above_the_blank_line_example :
  add_interface Examples.id
    (str "// head" ++ NL :: str "import a from 'a'" ++ NL :: NL
       :: str "export {}")
  = str "// head" ++ NL :: interface_code Examples.id
      ++ str "import a from 'a'" ++ NL :: NL :: str "export {}".
Proof.
  apply (block_goes_before_the_line_above_the_blank_line Examples.id
           (str "// head") (str "import a from 'a'") (str "export {}")).
  - reflexivity.
  - vm_compute. intuition discriminate.
Defined.

(** X2: when the first line is directly followed by a blank line, the
    fallback applies and the block is inserted between that line and the
    blank line. *)
Theorem block_goes_after_a_single_first_line (name l rest : text) :
  ~ In NL l ->
  add_interface name (l ++ NL :: NL :: rest)
  = l ++ NL :: interface_code name ++ NL :: rest.
Proof.
  intros Hl. apply PlaceCases.add_interface_after.
  unfold import_section_end, Py.find.
  rewrite PlaceFacts.find_blank_line
    by (now apply PlaceCases.no_blank_line_in_line).
  rewrite Z.add_0_l, PlaceFacts.rfind_prefix
    by (rewrite !length_app; simpl; lia).
  rewrite firstn_app, firstn_all, Nat.sub_diag. simpl firstn.
  rewrite app_nil_r, PlaceFacts.rfind_from_absent by assumption.
  reflexivity.
Qed.

Lemma block_goes_after_a_single_first_line_example :
  add_interface Examples.id
    (str "import a from 'a'" ++ NL :: NL :: str "export {}")
  = str "import a from 'a'" ++ NL :: interface_code Examples.id
      ++ NL :: str "export {}".
Proof.
  apply (block_goes_after_a_single_first_line Examples.id
           (str "import a from 'a'") (str "export {}")).
  vm_compute. intuition discriminate.
Defined.

(** X3: in a text of several lines without a blank line, the block is
    inserted in front of the last line (the search for the last newline
    leaves the final character of the text out, so a newline that ends the
    text does not count). *)
Theorem block_goes_before_the_last_line (name a l t : text) :
  Py.contains [NL; NL] (a ++ NL :: l ++ t) = false ->
  ~ In NL l -> l <> [] -> t = [] \/ t = [NL] ->
  add_interface name (a ++ NL :: l ++ t)
  = a ++ NL :: interface_code name ++ l ++ t.
Proof.
  intros Hb Hl Nl Ht. apply PlaceCases.add_interface_after.
  unfold import_section_end, Py.find.
  rewrite PlaceFacts.find_no_blank_line by assumption.
  rewrite PlaceFacts.rfind_all_but_last.
  assert (E : exists l', ~ In NL l' /\
                firstn (length (a ++ NL :: l ++ t) - 1) (a ++ NL :: l ++ t)
                = a ++ NL :: l').
  { destruct Ht as [->| ->].
    - destruct (@exists_last _ l Nl) as (l' & x & ->).
      exists l'. split.
      + intros Hin. apply Hl. apply in_or_app. now left.
      + rewrite app_nil_r.
        replace (a ++ NL :: l' ++ [x]) with ((a ++ NL :: l') ++ [x])
          by (now rewrite <- app_assoc).
        rewrite length_app. simpl length.
        replace (length (a ++ NL :: l') + 1 - 1) with (length (a ++ NL :: l'))
          by lia.
        now rewrite firstn_app, firstn_all, Nat.sub_diag, app_nil_r.
    - exists l. split; [assumption|].
      replace (a ++ NL :: l ++ [NL]) with ((a ++ NL :: l) ++ [NL])
        by (now rewrite <- app_assoc).
      rewrite length_app. simpl length.
      replace (length (a ++ NL :: l) + 1 - 1) with (length (a ++ NL :: l))
        by lia.
      now rewrite firstn_app, firstn_all, Nat.sub_diag, app_nil_r. }
  destruct E as (l' & Hl' & ->).
  rewrite PlaceFacts.rfind_last_newline by (assumption || lia).
  destruct (Z.eqb_spec (0 + Z.of_nat (length a)) (-1)); lia.
Qed.

Lemma block_goes_before_the_last_line_example :
  add_interface Examples.id
    (str "import a from 'a'" ++ NL :: str "export {}" ++ [NL])
  = str "import a from 'a'" ++ NL :: interface_code Examples.id
      ++ str "export {}" ++ [NL].
Proof.
  apply (block_goes_before_the_last_line Examples.id
           (str "import a from 'a'") (str "export {}") [NL]).
  - reflexivity.
  - vm_compute. intuition discriminate.
  - discriminate.
  - now right.
Defined.

(** X4: a text of one line, with or without the newline that ends it, gets
    the block in front. *)
Theorem block_goes_in_front_of_a_single_line (name l t : text) :
  ~ In NL l -> t = [] \/ t = [NL] ->
  add_interface name (l ++ t) = interface_code name ++ l ++ t.
Proof.
  intros Hl Ht. apply PlaceCases.add_interface_front.
  unfold import_section_end, Py.find.
  assert (Hb : Py.contains [NL; NL] (l ++ t) = false).
  { destruct Ht as [->| ->].
    - rewrite app_nil_r. apply PyFacts.contains_absent. exact Hl.
    - now apply PlaceCases.no_blank_line_in_line. }
  rewrite PlaceFacts.find_no_blank_line by assumption.
  rewrite PlaceFacts.rfind_all_but_last.
  assert (E : exists l', ~ In NL l' /\
                firstn (length (l ++ t) - 1) (l ++ t) = l').
  { destruct Ht as [->| ->].
    - exists (firstn (length (l ++ []) - 1) (l ++ [])). split; [|reflexivity].
      intros Hin. apply Hl. rewrite app_nil_r in Hin.
      rewrite <- (firstn_skipn (length l - 1) l). apply in_or_app. now left.
    - exists l. split; [assumption|].
      rewrite length_app. simpl length.
      replace (length l + 1 - 1) with (length l) by lia.
      now rewrite firstn_app, firstn_all, Nat.sub_diag, app_nil_r. }
  destruct E as (l' & Hl' & ->).
  now rewrite PlaceFacts.rfind_from_absent.
Qed.

Lemma block_goes_in_front_of_a_single_line_example :
  add_interface Examples.id (str "export {}" ++ [NL])
  = interface_code Examples.id ++ str "export {}" ++ [NL].
Proof.
  apply (block_goes_in_front_of_a_single_line Examples.id (str "export {}")
           [NL]).
  - vm_compute. intuition discriminate.
  - now right.
Defined.

(* ================================================================= *)
(** ** Step 1: only an insertion, at the start of a line *)

Module InsertFacts.
Import Py PyFacts PlaceFacts PlaceCases.

Lemma find_from_cases (sub s : text) : forall i,
  find_from sub s i = (-1)%Z \/
  exists a b, s = a ++ sub ++ b /\
              find_from sub s i = (i + Z.of_nat (length a))%Z.
Proof.
  induction s as [|c s IH]; intros i.
  - cbn [find_from]. destruct (startswith sub []) eqn:E; [|now left].
    right. apply startswith_iff in E as [r ->]. exists [], r.
    split; [reflexivity | simpl; lia].
  - cbn [find_from]. destruct (startswith sub (c :: s)) eqn:E.
    + right. apply startswith_iff in E as [r ->]. exists [], r.
      split; [reflexivity | simpl; lia].
    + destruct (IH (i + 1)%Z) as [->|(a & b & -> & ->)]; [now left|].
      right. exists (c :: a), b. split; [reflexivity | simpl length; lia].
Qed.

Lemma rfind_from_cases (sub s : text) : forall i,
  (0 <= i)%Z ->
  rfind_from sub s i = (-1)%Z \/
  exists a b, s = a ++ sub ++ b /\
              rfind_from sub s i = (i + Z.of_nat (length a))%Z.
Proof.
  induction s as [|c s IH]; intros i Hi.
  - cbn [rfind_from]. destruct (startswith sub []) eqn:E; [|now left].
    right. apply startswith_iff in E as [r ->]. exists [], r.
    split; [reflexivity | simpl; lia].
  - cbn [rfind_from].
    destruct (IH (i + 1)%Z ltac:(lia)) as [E|(a & b & Es & E)]; rewrite E.
    + change (0 <=? -1)%Z with false. cbv iota.
      destruct (startswith sub (c :: s)) eqn:E'; [|now left].
      right. apply startswith_iff in E' as [r ->]. exists [], r.
      split; [reflexivity | simpl; lia].
    + destruct (Z.leb_spec 0 (i + 1 + Z.of_nat (length a))); [|lia].
      right. exists (c :: a), b. rewrite Es.
      split; [reflexivity | simpl length; lia].
Qed.

(** [import_section_end] is [-1] or the index of a newline. *)
Lemma import_section_end_cases (content : text) :
  import_section_end content = (-1)%Z \/
  exists a b, content = a ++ NL :: b /\
              import_section_end content = Z.of_nat (length a).
Proof.
  unfold import_section_end.
  assert (R : rfind [NL] content 0 (find [NL; NL] content) = (-1)%Z \/
              exists a b, content = a ++ NL :: b /\
                rfind [NL] content 0 (find [NL; NL] content)
                = Z.of_nat (length a)).
  { unfold rfind.
    assert (C0 : clamp 0 (Z.of_nat (length content)) = 0%Z).
    { unfold clamp. change (0 <? 0)%Z with false. cbv iota. lia. }
    rewrite C0.
    destruct (clamp (find [NL; NL] content) (Z.of_nat (length content)) <? 0)%Z;
      [now left|].
    unfold slice. rewrite C0. change (Z.to_nat 0) with 0.
    rewrite Nat.sub_0_r. cbn [skipn].
    set (k := Z.to_nat (clamp (find [NL; NL] content)
                          (Z.of_nat (length content)))).
    destruct (rfind_from_cases [NL] (firstn k content) 0 ltac:(lia))
      as [E|(a & b & Es & E)]; [now left|].
    right. exists a, (b ++ skipn k content). split.
    - rewrite <- (firstn_skipn k content) at 1. rewrite Es.
      now rewrite <- !app_assoc.
    - rewrite E. lia. }
  destruct R as [->|(a & b & Es & ->)].
  - change (-1 =? -1)%Z with true. cbv iota. unfold find.
    destruct (find_from_cases [NL; NL] content 0) as [E|(a & b & Es & E)];
      [now left|].
    right. exists a, (NL :: b). split; [exact Es | rewrite E; lia].
  - destruct (Z.eqb_spec (Z.of_nat (length a)) (-1)); [lia|].
    right. now exists a, b.
Qed.

End InsertFacts.

(** X5: Step 1 only inserts: the text is cut in two, the block is put
    between the parts and nothing is lost; the cut is at the start of the
    text or right after a newline, so the block always starts a line. *)
Theorem block_is_inserted_at_a_line_start (name content : text) :
  exists pre post,
    content = pre ++ post /\
    add_interface name content = pre ++ interface_code name ++ post /\
    (pre = [] \/ exists pre', pre = pre' ++ [NL]).
Proof.
  destruct (InsertFacts.import_section_end_cases content)
    as [E|(a & b & Es & E)].
  - exists [], content. split; [reflexivity|]. split; [|now left].
    now apply PlaceCases.add_interface_front.
  - exists (a ++ [NL]), b. rewrite Es in E. split; [|split].
    + rewrite Es. now rewrite <- app_assoc.
    + rewrite Es, (PlaceCases.add_interface_after name a b E).
      now rewrite <- app_assoc.
    + right. now exists a.
Qed.

(* ================================================================= *)
(** ** The loop only inserts, and only after a [try {] line *)

Module InsertedFacts.
Import Py PyFacts.

Lemma has_newline_iff (e : text) : has_newline e = true <-> In NL e.
Proof.
  unfold has_newline. rewrite existsb_exists. split.
  - intros (x & Hx & E). apply N.eqb_eq in E. now subst.
  - intros H. exists NL. split; [assumption | apply N.eqb_refl].
Qed.

Lemma line_has_no_newline (l : text) : ~ In NL l -> has_newline l = false.
Proof.
  intros H. apply not_true_is_false. intros E. now apply has_newline_iff in E.
Qed.

Lemma await_line_has_newline (name : text) (k : nat) :
  has_newline (await_line name k) = true.
Proof.
  apply has_newline_iff. unfold await_line.
  repeat (apply in_or_app; right). now left.
Qed.

End InsertedFacts.

(** X6: the loop drops and changes no line: without the elements that carry
    a newline (the ones it appended), [new_lines] is the list of lines it
    was given, in the same order. *)
Theorem loop_keeps_every_line (name : text) (lines : list text)
    (in_function added_await : bool) :
  (forall l, In l lines -> ~ In NL l) ->
  filter (fun e => negb (has_newline e))
    (add_await name in_function added_await lines) = lines.
Proof.
  revert in_function added_await.
  induction lines as [|l lines IH]; intros inf added H; [reflexivity|].
  assert (Hl : has_newline l = false)
    by (apply InsertedFacts.line_has_no_newline, H; now left).
  assert (Hr : forall l', In l' lines -> ~ In NL l')
    by (intros l' Hl'; apply H; now right).
  cbn [add_await].
  destruct ((if Py.contains route_params_sig l then true else inf)
            && negb (if Py.contains route_params_sig l then false else added)
            && Py.contains try_open l).
  - cbn [filter]. rewrite Hl, InsertedFacts.await_line_has_newline.
    cbn [negb]. f_equal. now apply IH.
  - cbn [filter]. rewrite Hl. cbn [negb]. f_equal. now apply IH.
Qed.

Lemma loop_keeps_every_line_example :
  filter (fun e => negb (has_newline e))
    (add_await Examples.id false false
       [str "{ params }: RouteParams {"; str "  try {"; str "    ..."])
  = [str "{ params }: RouteParams {"; str "  try {"; str "    ..."].
Proof.
  apply (loop_keeps_every_line Examples.id
           [str "{ params }: RouteParams {"; str "  try {"; str "    ..."]
           false false).
  intros l [<-|[<-|[<-|[]]]]; vm_compute; intuition discriminate.
Defined.

(** X7: every element the loop appends stands right after a line that
    contains [try {], and it is the extraction line for the indentation of
    that line. *)
Theorem loop_inserts_only_after_try (name : text) (lines : list text)
    (in_function added_await : bool) (pre post : list text) (e : text) :
  (forall l, In l lines -> ~ In NL l) ->
  add_await name in_function added_await lines = pre ++ e :: post ->
  has_newline e = true ->
  exists pre' line,
    pre = pre' ++ [line] /\
    In line lines /\
    Py.contains try_open line = true /\
    e = await_line name (indent_of line).
Proof.
  revert in_function added_await pre.
  induction lines as [|l lines IH]; intros inf added pre H E He.
  { destruct pre; discriminate. }
  assert (Hl : has_newline l = false)
    by (apply InsertedFacts.line_has_no_newline, H; now left).
  assert (Hr : forall l', In l' lines -> ~ In NL l')
    by (intros l' Hl'; apply H; now right).
  cbn [add_await] in E.
  destruct ((if Py.contains route_params_sig l then true else inf)
            && negb (if Py.contains route_params_sig l then false else added)
            && Py.contains try_open l) eqn:F.
  - apply andb_true_iff in F as [_ Ft].
    destruct pre as [|x pre]; [injection E as <- _; congruence|].
    injection E as <- E.
    destruct pre as [|y pre].
    + injection E as <- _. exists [], l. repeat split; try assumption.
      now left.
    + injection E as <- E.
      destruct (IH _ _ _ Hr E He) as (pre' & line & -> & Hin & Ht & ->).
      exists (l :: await_line name (indent_of l) :: pre'), line.
      repeat split; try assumption. now right.
  - destruct pre as [|x pre]; [injection E as <- _; congruence|].
    injection E as <- E.
    destruct (IH _ _ _ Hr E He) as (pre' & line & -> & Hin & Ht & ->).
    exists (l :: pre'), line. repeat split; try assumption. now right.
Qed.

Lemma loop_inserts_only_after_try_example :
  exists pre' line,
    [str "{ params }: RouteParams {"; str "  try {"] = pre' ++ [line] /\
    In line [str "{ params }: RouteParams {"; str "  try {"; str "    ..."] /\
    Py.contains try_open line = true /\
    await_line Examples.id 2 = await_line Examples.id (indent_of line).
Proof.
  apply (loop_inserts_only_after_try Examples.id
           [str "{ params }: RouteParams {"; str "  try {"; str "    ..."]
           false false
           [str "{ params }: RouteParams {"; str "  try {"]
           [str "    ..."] (await_line Examples.id 2)).
  - intros l [<-|[<-|[<-|[]]]]; vm_compute; intuition discriminate.
  - vm_compute. reflexivity.
  - vm_compute. reflexivity.
Defined.

(* ================================================================= *)
(** ** Texts that do not mention [params] *)

Module UntouchedFacts.
Import Py PyFacts Lang LangFacts SubFacts.

Lemma contains_trans (m x s : text) :
  contains m x = true -> contains x s = true -> contains m s = true.
Proof.
  intros H1 H2. apply contains_iff in H1 as (a & b & ->).
  apply contains_iff in H2 as (c & d & ->). apply contains_iff.
  exists (c ++ a), (b ++ d). now rewrite <- !app_assoc.
Qed.

Lemma contains_app_r (m a s : text) :
  contains m s = true -> contains m (a ++ s) = true.
Proof.
  intros H. apply contains_iff in H as (x & y & ->). apply contains_iff.
  exists (a ++ x), y. now rewrite <- app_assoc.
Qed.

(** A match contains every literal of its pattern. *)
Lemma matches_contains_lit (p : regex) (w l : text) :
  matches p w -> In (Lit l) p -> contains l w = true.
Proof.
  induction 1 as [|l0 p w H IH|ws p w Hws H IH]; intros Hin.
  - destruct Hin.
  - destruct Hin as [[= ->]|Hin].
    + apply (contains_app l []).
    + apply contains_app_r. now apply IH.
  - destruct Hin as [Hin|Hin]; [discriminate|].
    apply contains_app_r. now apply IH.
Qed.

(** Without a literal of the pattern there is no match. *)
Lemma no_match_without_lit (p : regex) (l s : text) :
  In (Lit l) p -> contains l s = false -> no_match p s.
Proof.
  intros Hin H i. destruct (match_at p (skipn i s)) as [n|] eqn:E;
    [exfalso | reflexivity].
  destruct (match_at_sound _ _ _ E) as (w & r & Hs & _ & Hw).
  apply (matches_contains_lit _ _ _ Hw) in Hin.
  assert (Hc : contains l s = true).
  { rewrite <- (firstn_skipn i s), Hs. apply contains_app_r.
    apply contains_iff in Hin as (a & b & ->). apply contains_iff.
    exists a, (b ++ r). now rewrite <- !app_assoc. }
  congruence.
Qed.

End UntouchedFacts.

(** X8: a text in which [params] does not occur is left as it is by Steps
    2, 3 and 4. *)
Theorem text_without_params_is_untouched (name s : text) :
  identifier name = true ->
  Py.contains (str "params") s = false ->
  replace_signature name s = s /\
  insert_await name s = s /\
  replace_references name s = s.
Proof.
  intros _ H. split; [|split].
  - apply SubFacts.sub_no_match.
    apply (UntouchedFacts.no_match_without_lit _ (str "params") s);
      [|assumption].
    unfold signature_pattern. simpl. tauto.
  - apply LoopFacts.insert_await_idle. apply not_true_is_false. intros Hc.
    rewrite (UntouchedFacts.contains_trans (str "params") route_params_sig s
               eq_refl Hc) in H.
    discriminate.
  - apply SubFacts.sub_no_match.
    apply (UntouchedFacts.no_match_without_lit _ (str "params.") s).
    + unfold reference_pattern. simpl. tauto.
    + apply not_true_is_false. intros Hc.
      rewrite (UntouchedFacts.contains_trans (str "params") (str "params.") s
                 eq_refl Hc) in H.
      discriminate.
Qed.

Lemma text_without_params_is_untouched_example :
  replace_signature Examples.id Examples.two_imports = Examples.two_imports /\
  insert_await Examples.id Examples.two_imports = Examples.two_imports /\
  replace_references Examples.id Examples.two_imports = Examples.two_imports.
Proof.
  apply (text_without_params_is_untouched Examples.id Examples.two_imports);
    reflexivity.
Defined.

(** X9: a text that is rewritten did not hit the guard, the text written in
    its place does, and so the two differ: the function returns [True] only
    for a file it has changed. *)
Theorem rewritten_text_differs (content name out : text) :
  identifier name = true ->
  transform content name = Rewritten out ->
  guard content = false /\ guard out = true /\ out <> content.
Proof.
  intros Hn T. unfold transform in T.
  destruct (guard content) eqn:G; [discriminate|].
  injection T as <-.
  pose proof (GuardFacts.rewritten_hits_guard name content Hn) as Ho.
  repeat split; try assumption. intros E. rewrite E in Ho. congruence.
Qed.

Lemma rewritten_text_differs_example :
  guard Examples.plain_handler = false /\
  guard (text_after Examples.plain_handler Examples.id) = true /\
  text_after Examples.plain_handler Examples.id <> Examples.plain_handler.
Proof.
  apply (rewritten_text_differs Examples.plain_handler Examples.id
           (text_after Examples.plain_handler Examples.id)).
  - reflexivity.
  - vm_compute. reflexivity.
Defined.

(* ================================================================= *)
(** ** fix_route_file and the files *)

Module FileFacts.

Lemma write_file_usable (p : path) (content : text) (w : world) :
  usable w p = true ->
  exists w', write_file p content w = (w', Returned tt) /\
             stdout w' = stdout w /\
             option_map data (fs w' p) = Some content /\
             (forall q, q <> p -> fs w' q = fs w q) /\
             (forall q, usable w q = true -> usable w' q = true).
Proof.
  unfold usable, write_file. intros H.
  destruct (fs w p) as [f|] eqn:Hf; [|discriminate].
  apply andb_true_iff in H as [Hr Hw]. rewrite Hw.
  eexists. split; [reflexivity|]. cbn [fs stdout].
  split; [reflexivity|]. split; [|split].
  - now rewrite String.eqb_refl.
  - intros q Hq. apply String.eqb_neq in Hq. now rewrite Hq.
  - intros q. destruct (String.eqb_spec q p) as [->|_]; [|trivial].
    intros _. cbn [readable writable]. now rewrite Hr.
Qed.

(** On a usable file the function returns, prints one line and keeps every
    usable file usable. *)
Lemma fix_route_file_usable (p : path) (name : text) (w : world) :
  usable w p = true ->
  exists w' b line,
    fix_route_file p name w = (w', Returned b) /\
    stdout w' = line :: stdout w /\
    (forall q, usable w q = true -> usable w' q = true).
Proof.
  intros H. pose proof H as H'. unfold usable in H'.
  destruct (fs w p) as [f|] eqn:Hf; [|discriminate].
  apply andb_true_iff in H' as [Hr Hw].
  unfold fix_route_file, bind, read_file. rewrite Hf, Hr.
  destruct (transform (data f) name) as [|out].
  - eexists. eexists. eexists. split; [reflexivity|].
    split; [reflexivity|]. intros q Hq. exact Hq.
  - destruct (write_file_usable p out w H)
      as (w1 & E & Hs & _ & _ & Hu).
    rewrite E. eexists. eexists. eexists. split; [reflexivity|].
    cbn [stdout]. rewrite Hs. split; [reflexivity|].
    intros q Hq. apply Hu in Hq. exact Hq.
Qed.

(** The text a run leaves is skipped by the next run. *)
Lemma rerun_skipped (name content : text) :
  identifier name = true ->
  transform (text_after content name) name = Skipped.
Proof.
  intros Hn. unfold text_after, transform. destruct (guard content) eqn:G.
  - now rewrite G.
  - now rewrite GuardFacts.rewritten_hits_guard.
Qed.

End FileFacts.

(** X10: [fix_route_file] reads and writes the file it is given and no
    other: whatever the outcome, every other path is as before. *)
Theorem fix_route_file_touches_one_file
    (p q : path) (name : text) (w w' : world) (o : outcome bool) :
  fix_route_file p name w = (w', o) ->
  q <> p ->
  fs w' q = fs w q.
Proof.
  intros E Hq. apply String.eqb_neq in Hq.
  unfold fix_route_file, bind, read_file in E.
  destruct (fs w p) as [f|] eqn:Hf; [|now injection E as <- _].
  destruct (readable f); [|now injection E as <- _].
  destruct (transform (data f) name) as [|out].
  - cbn in E. now injection E as <- _.
  - unfold write_file in E. rewrite Hf in E.
    destruct (writable f); cbn in E; injection E as <- _; cbn [fs];
      [now rewrite Hq | reflexivity].
Qed.

Lemma fix_route_file_touches_one_file_example :
  fs (fst (fix_route_file Examples.users_route Examples.username
             Examples.first_file_missing)) Examples.quiz_route
  = fs Examples.first_file_missing Examples.quiz_route.
Proof.
  apply (fix_route_file_touches_one_file Examples.users_route
           Examples.quiz_route Examples.username Examples.first_file_missing
           _ (snd (fix_route_file Examples.users_route Examples.username
                     Examples.first_file_missing))).
  - now destruct (fix_route_file Examples.users_route Examples.username
                    Examples.first_file_missing).
  - discriminate.
Defined.

(** X11: when [fix_route_file] raises, nothing has happened: no file is
    changed and nothing is printed; the exception is that of the file it was
    given (missing, or not readable or writable). *)
Theorem fix_route_file_raises_without_effect
    (p : path) (name : text) (w w' : world) (e : exn) :
  fix_route_file p name w = (w', Raised e) ->
  w' = w /\ (e = FileNotFoundError p \/ e = PermissionError p).
Proof.
  intros E. unfold fix_route_file, bind, read_file in E.
  destruct (fs w p) as [f|] eqn:Hf.
  2:{ injection E as <- <-. split; [reflexivity | now left]. }
  destruct (readable f).
  2:{ injection E as <- <-. split; [reflexivity | now right]. }
  destruct (transform (data f) name) as [|out].
  - cbn in E. discriminate.
  - unfold write_file in E. rewrite Hf in E.
    destruct (writable f); cbn in E; [discriminate|].
    injection E as <- <-. split; [reflexivity | now right].
Qed.

Lemma fix_route_file_raises_without_effect_example :
  fst (fix_route_file Examples.quiz_route Examples.id
         Examples.first_file_missing) = Examples.first_file_missing.
Proof.
  apply (fix_route_file_raises_without_effect Examples.quiz_route Examples.id
           Examples.first_file_missing _
           (FileNotFoundError Examples.quiz_route)).
  reflexivity.
Defined.

(** X12: running [fix_route_file] twice on a usable file: the first run
    leaves the text [text_after] gives and returns whether the guard let it
    through; the second run returns [False] and leaves the files as the
    first run left them. *)
Theorem fix_route_file_twice
    (p : path) (name : text) (w : world) (f : file) :
  identifier name = true ->
  fs w p = Some f -> readable f = true -> writable f = true ->
  exists w1 w2,
    fix_route_file p name w = (w1, Returned (negb (guard (data f)))) /\
    option_map data (fs w1 p) = Some (text_after (data f) name) /\
    fix_route_file p name w1 = (w2, Returned false) /\
    fs w2 = fs w1.
Proof.
  intros Hn Hf Hr Hw.
  assert (Skip : forall w0 f0,
            fs w0 p = Some f0 -> readable f0 = true ->
            transform (data f0) name = Skipped ->
            exists w2, fix_route_file p name w0 = (w2, Returned false)
                       /\ fs w2 = fs w0).
  { intros w0 f0 Hf0 Hr0 T. eexists. split.
    - unfold fix_route_file, bind, read_file. rewrite Hf0, Hr0, T.
      reflexivity.
    - reflexivity. }
  pose proof (FileFacts.rerun_skipped name (data f) Hn) as T2.
  unfold text_after in *.
  destruct (transform (data f) name) as [|out] eqn:T.
  - (* the guard stops the first run already *)
    assert (G : guard (data f) = true).
    { unfold transform in T. destruct (guard (data f)); [reflexivity|].
      discriminate. }
    destruct (Skip w f Hf Hr T) as (w1 & E1 & F1).
    exists w1. destruct (Skip w1 f) as (w2 & E2 & F2);
      [now rewrite F1 | assumption | assumption |].
    exists w2. rewrite G. repeat split; try assumption.
    now rewrite F1, Hf.
  - assert (G : guard (data f) = false).
    { unfold transform in T. destruct (guard (data f)); [discriminate|].
      reflexivity. }
    assert (U : usable w p = true)
      by (unfold usable; now rewrite Hf, Hr, Hw).
    destruct (FileFacts.write_file_usable p out w U)
      as (w1 & E & Hs & Hd & _ & Hu).
    destruct (fs w1 p) as [f1|] eqn:Hf1; [|discriminate].
    injection Hd as Hd.
    assert (Hr1 : readable f1 = true).
    { specialize (Hu p U). unfold usable in Hu. rewrite Hf1 in Hu.
      now apply andb_true_iff in Hu as [Hu _]. }
    eexists. destruct (Skip {| fs := fs w1;
                               stdout := ("  " ++ p ++ " - Fixed!")%string
                                           :: stdout w1 |} f1)
      as (w2 & E2 & F2); [exact Hf1 | exact Hr1 | now rewrite Hd |].
    exists w2. rewrite G. split; [|split; [|split]].
    + unfold fix_route_file, bind, read_file. rewrite Hf, Hr, T, E.
      reflexivity.
    + cbn [fs]. rewrite Hf1. cbn [option_map]. now rewrite Hd.
    + exact E2.
    + exact F2.
Qed.

Lemma fix_route_file_twice_example :
  exists w1 w2,
    fix_route_file Examples.users_route Examples.username
      Examples.first_file_missing
    = (w1, Returned (negb (guard Examples.users_handler))) /\
    option_map data (fs w1 Examples.users_route)
    = Some (text_after Examples.users_handler Examples.username) /\
    fix_route_file Examples.users_route Examples.username w1
    = (w2, Returned false) /\
    fs w2 = fs w1.
Proof.
  apply (fix_route_file_twice Examples.users_route Examples.username
           Examples.first_file_missing
           {| data := Examples.users_handler;
              readable := true; writable := true |});
    reflexivity.
Defined.

(* ================================================================= *)
(** ** The driver on usable files *)

Module DriverFacts.

Lemma fix_all_usable (table : list (path * text)) : forall w,
  (forall p name, In (p, name) table -> usable w p = true) ->
  exists w' lines,
    fix_all table w = (w', Returned tt) /\
    stdout w' = lines ++ stdout w /\
    length lines = length table /\
    (forall q, usable w q = true -> usable w' q = true).
Proof.
  induction table as [|[p name] table IH]; intros w H.
  - exists w, []. repeat split. trivial.
  - destruct (FileFacts.fix_route_file_usable p name w)
      as (w1 & b & line & E & Hs & Hu); [apply (H p name); now left|].
    destruct (IH w1) as (w' & lines & E' & Hs' & Hl & Hu').
    { intros p' name' Hin. apply Hu. apply (H p' name'). now right. }
    exists w', (lines ++ [line]). split; [|split; [|split]].
    + cbn [fix_all]. unfold bind. now rewrite E.
    + now rewrite Hs', Hs, <- app_assoc.
    + rewrite length_app, Hl. simpl. lia.
    + intros q Hq. now apply Hu', Hu.
Qed.

End DriverFacts.

(** X13: when every file of the table is there, readable and writable, and
    every name of the table is an identifier, the loop handles them all and
    returns; it prints one line per file and leaves the files usable. *)
Theorem fix_all_succeeds_on_usable_files
    (table : list (path * text)) (w : world) :
  (forall p name, In (p, name) table ->
                  usable w p = true /\ identifier name = true) ->
  exists w' lines,
    fix_all table w = (w', Returned tt) /\
    stdout w' = lines ++ stdout w /\
    length lines = length table /\
    (forall q, usable w q = true -> usable w' q = true).
Proof.
  revert w. induction table as [|[p name] table IH]; intros w H.
  - exists w, []. repeat split. trivial.
  - destruct (FileFacts.fix_route_file_usable p name w)
      as (w1 & b & line & E & Hs & Hu); [apply (H p name); now left|].
    destruct (IH w1) as (w' & lines & E' & Hs' & Hl & Hu').
    { intros p' name' Hin. destruct (H p' name') as [U I]; [now right|].
      split; [now apply Hu | exact I]. }
    exists w', (lines ++ [line]). split; [|split; [|split]].
    + cbn [fix_all]. unfold bind. now rewrite E.
    + now rewrite Hs', Hs, <- app_assoc.
    + rewrite length_app, Hl. simpl. lia.
    + intros q Hq. now apply Hu', Hu.
Qed.

Lemma fix_all_succeeds_on_usable_files_example :
  exists w' lines,
    fix_all files all_files_there = (w', Returned tt) /\
    stdout w' = lines ++ stdout all_files_there /\
    length lines = length files /\
    (forall q, usable all_files_there q = true -> usable w' q = true).
Proof.
  apply (fix_all_succeeds_on_usable_files files all_files_there).
  intros p name [[= <- <-]|[[= <- <-]|[[= <- <-]|[]]]];
    split; reflexivity.
Defined.

(** X14: with the three configured files usable the script runs to its end:
    it prints the opening line, one line per file and the closing line, in
    this order, and raises nothing. *)
Theorem main_runs_to_the_end (w : world) :
  (forall p name, In (p, name) files -> usable w p = true) ->
  exists w' lines,
    main w = (w', Returned tt) /\
    length lines = 3 /\
    stdout w'
    = String "010" "Done!" :: lines
        ++ "Fixing params for Next.js 15..."%string :: stdout w.
Proof.
  intros H.
  destruct (DriverFacts.fix_all_usable files
              {| fs := fs w;
                 stdout := "Fixing params for Next.js 15..."%string
                             :: stdout w |})
    as (w1 & lines & E & Hs & Hl & _).
  { intros p name Hin. apply (H p name Hin). }
  eexists. exists lines. split; [|split].
  - unfold main, bind, print. cbn [fs stdout]. rewrite E. reflexivity.
  - exact Hl.
  - cbn [stdout]. now rewrite Hs.
Qed.

Lemma main_runs_to_the_end_example :
  exists w' lines,
    main all_files_there = (w', Returned tt) /\
    length lines = 3 /\
    stdout w'
    = String "010" "Done!" :: lines
        ++ "Fixing params for Next.js 15..."%string
        :: stdout all_files_there.
Proof.
  apply (main_runs_to_the_end all_files_there).
  intros p name [[= <- <-]|[[= <- <-]|[[= <- <-]|[]]]]; reflexivity.
Defined.

(* ================================================================= *)
(** ** Step 2 and Step 4 for any name *)

Module AnyNameFacts.
Import Py PyFacts Lang LangFacts SubFacts NameFacts.

(** A name followed by a colon does not start a text that has identifier
    characters and then a closing brace. *)
Lemma name_colon_not_prefix (pre : text) : forall name t rest,
  identifier name = true -> identifier pre = true ->
  startswith (name ++ 58%N :: t) (pre ++ 125%N :: rest) = false.
Proof.
  induction pre as [|x pre IH]; intros name t rest Hn Hp.
  - destruct name as [|c name]; [reflexivity|].
    cbn [app startswith]. simpl in Hn. apply andb_true_iff in Hn as [Hc _].
    destruct (N.eqb_spec c 125) as [->|_]; [discriminate | reflexivity].
  - simpl in Hp. apply andb_true_iff in Hp as [Hx Hp].
    destruct name as [|c name].
    + cbn [app startswith].
      destruct (N.eqb_spec 58 x) as [<-|_]; [discriminate | reflexivity].
    + simpl in Hn. apply andb_true_iff in Hn as [_ Hn].
      cbn [app startswith]. rewrite (IH name t rest Hn Hp).
      apply andb_false_r.
Qed.

Lemma skipn_head (s : text) (j : nat) (P : char -> Prop) :
  (forall c, In c s -> P c) -> j < length s ->
  exists c r, skipn j s = c :: r /\ P c.
Proof.
  revert j. induction s as [|x s IH]; intros j H Hj; [simpl in Hj; lia|].
  destruct j as [|j].
  - exists x, s. split; [reflexivity | apply H; now left].
  - simpl. apply IH; [intros c Hc; apply H; now right | simpl in Hj; lia].
Qed.

Lemma signature_skeleton (name : text) :
  identifier name = true ->
  skeleton (signature_pattern name)
  = str "{params}:{params:{" ++ name ++ str ":string}}".
Proof.
  intros Hn. unfold skeleton. rewrite BlockFacts.literals_signature.
  now rewrite !strip_app, (name_no_space name Hn).
Qed.

(** The skeleton of the signature has no border, whatever the name. *)
Lemma signature_border_free (name : text) :
  identifier name = true ->
  border_free (skeleton (signature_pattern name)) = true.
Proof.
  intros Hn. rewrite (signature_skeleton name Hn).
  unfold border_free. apply forallb_forall. intros i Hi.
  apply in_seq in Hi. apply negb_true_iff.
  rewrite length_app in Hi.
  change (length (str "{params}:{params:{")) with 18 in Hi.
  do 18 (destruct i as [|i];
         [ try lia; try reflexivity;
           cbn [skipn app str map list_ascii_of_string N_of_ascii
                  N.eqb Pos.eqb startswith];
           try reflexivity | ]).
  - (* the third brace: the name would have to go on like [params}] *)
    cbn. apply (name_colon_not_prefix (str "params") name
                  (str "string}}") _ Hn eq_refl).
  - (* inside the name or after it there is no opening brace *)
    change (skipn (S (S (S (S (S (S (S (S (S (S (S (S (S (S (S (S (S (S i
              ))))))))))))))))))
              (str "{params}:{params:{" ++ name ++ str ":string}}"))
      with (skipn i (name ++ str ":string}}")).
    destruct (skipn_head (name ++ str ":string}}") i (fun c => c <> 123%N))
      as (c & r & -> & Hc).
    + intros c Hc. apply in_app_or in Hc as [Hc|Hc].
      * intros ->. now apply (name_without 123%N name Hn eq_refl).
      * intros ->. revert Hc. vm_compute. intuition discriminate.
    + rewrite length_app in *. simpl in *. lia.
    + cbn [app str map list_ascii_of_string startswith].
      destruct (N.eqb_spec c (N_of_ascii "{")) as [E|_]; [|reflexivity].
      exfalso. apply Hc. exact E.
Qed.

Lemma signature_separable (name : text) :
  identifier name = true -> separable (signature_pattern name) = true.
Proof.
  intros Hn. unfold separable.
  change (first_char (signature_pattern name)) with (Some 123%N).
  change (last_char (signature_pattern name)) with (Some 125%N).
  now rewrite (signature_border_free name Hn).
Qed.

End AnyNameFacts.

(** X15: for every identifier name, each occurrence of the inline signature
    for that name (any white space where the shape has a space) is replaced
    by [{ params }: RouteParams], and the text on either side is rewritten
    on its own. *)
Theorem signature_is_replaced_for_any_name (name a w b : text) :
  identifier name = true ->
  Lang.matches (signature_pattern name) w ->
  replace_signature name (a ++ w ++ b)
  = replace_signature name a ++ str "{ params }: RouteParams"
      ++ replace_signature name b.
Proof.
  intros Hn Hw. unfold replace_signature.
  apply (SubFacts.sub_occurrence _ _
           (AnyNameFacts.signature_separable name Hn) _ _ _ Hw).
Qed.

Lemma signature_is_replaced_for_any_name_example :
  replace_signature Examples.username
    (str "GET(r, "
       ++ str "{ params }: { params: { username: string } }" ++ str ") {")
  = replace_signature Examples.username (str "GET(r, ")
      ++ str "{ params }: RouteParams"
      ++ replace_signature Examples.username (str ") {").
Proof.
  apply (signature_is_replaced_for_any_name Examples.username
           (str "GET(r, ")
           (str "{ params }: { params: { username: string } }")
           (str ") {")).
  - reflexivity.
  - apply SigFacts.matches_of_match_at. vm_compute. reflexivity.
Defined.

Module AnyReferenceFacts.
Import Py PyFacts Lang LangFacts SubFacts NameFacts.

Lemma reference_separable (name : text) :
  identifier name = true -> name <> [] ->
  border_free (str "params." ++ name) = true ->
  separable (reference_pattern name) = true.
Proof.
  intros Hn Ne Hb. unfold separable.
  change (first_char (reference_pattern name)) with (Some 112%N).
  assert (L : exists c, last_char (reference_pattern name) = Some c
                        /\ isspace c = false).
  { destruct (@exists_last _ name Ne) as (n' & c & E).
    exists c. split.
    - cbn [reference_pattern last_char]. rewrite E, rev_app_distr.
      reflexivity.
    - apply ident_not_space. unfold identifier in Hn.
      rewrite forallb_forall in Hn. apply Hn. rewrite E.
      apply in_or_app. right. now left. }
  destruct L as (c & -> & Hc). rewrite Hc.
  unfold skeleton. rewrite BlockFacts.literals_reference, strip_app.
  rewrite (name_no_space name Hn).
  change (strip (str "params.")) with (str "params."). rewrite Hb.
  reflexivity.
Qed.

End AnyReferenceFacts.

(** X16: for an identifier name such that no two occurrences of
    [params.<name>] can overlap (no proper end of it is also a start of it),
    each occurrence is replaced by the name, and the text on either side is
    rewritten on its own. *)
Theorem reference_is_replaced_for_any_name (name a b : text) :
  identifier name = true -> name <> [] ->
  Lang.border_free (str "params." ++ name) = true ->
  replace_references name (a ++ (str "params." ++ name) ++ b)
  = replace_references name a ++ name ++ replace_references name b.
Proof.
  intros Hn Ne Hb. unfold replace_references.
  apply (SubFacts.sub_occurrence _ _
           (AnyReferenceFacts.reference_separable name Hn Ne Hb)).
  rewrite <- (BlockFacts.literals_reference name).
  apply (RefFacts.matches_literals (reference_pattern name) eq_refl).
Qed.

Lemma reference_is_replaced_for_any_name_example :
  replace_references Examples.id
    (str "return " ++ (str "params." ++ Examples.id) ++ str ";")
  = replace_references Examples.id (str "return ") ++ Examples.id
      ++ replace_references Examples.id (str ";").
Proof.
  apply (reference_is_replaced_for_any_name Examples.id (str "return ")
           (str ";")).
  - reflexivity.
  - discriminate.
  - reflexivity.
Defined.

Module AnyLeftoverFacts.
Import Py PyFacts Lang LangFacts SubFacts NameFacts AnyNameFacts.

(** The pattern matches at no position of its replacement, whatever the name
    and whatever follows. *)
Lemma not_inside (name t : text) (i : nat) :
  i < length route_params_sig ->
  match_at (signature_pattern name) (skipn i route_params_sig ++ t) = None.
Proof.
  intros H.
  do 23 (destruct i as [|i]; [reflexivity|]).
  exfalso. revert H. vm_compute. lia.
Qed.

(** Identifier characters and a closing brace do not start a name that is
    followed by a colon. *)
Lemma brace_not_prefix_of_name (pre : text) : forall name t rest,
  identifier name = true -> identifier pre = true ->
  startswith (pre ++ 125%N :: rest) (name ++ 58%N :: t) = false.
Proof.
  induction pre as [|x pre IH]; intros name t rest Hn Hp.
  - destruct name as [|c name]; [reflexivity|].
    cbn [app startswith]. simpl in Hn. apply andb_true_iff in Hn as [Hc _].
    destruct (N.eqb_spec 125 c) as [<-|_]; [discriminate | reflexivity].
  - simpl in Hp. apply andb_true_iff in Hp as [Hx Hp].
    destruct name as [|c name].
    + cbn [app startswith].
      destruct (N.eqb_spec x 58) as [->|_]; [discriminate | reflexivity].
    + simpl in Hn. apply andb_true_iff in Hn as [_ Hn].
      cbn [app startswith]. rewrite (IH name t rest Hn Hp).
      apply andb_false_r.
Qed.

Lemma replacement_not_in_skeleton (name : text) :
  identifier name = true ->
  contains (strip route_params_sig) (skeleton (signature_pattern name))
  = false.
Proof.
  intros Hn. rewrite (signature_skeleton name Hn).
  change (strip route_params_sig) with (123%N :: str "params}:RouteParams").
  change (str "{params}:{params:{" ++ name ++ str ":string}}")
    with (str "{params}:{params:" ++ 123%N :: name ++ str ":string}}").
  assert (Tail : contains (123%N :: str "params}:RouteParams")
                   (name ++ str ":string}}") = false).
  { apply contains_absent. intros Hin. apply in_app_or in Hin as [Hin|Hin].
    - now apply (name_without 123%N name Hn eq_refl).
    - revert Hin. vm_compute. intuition discriminate. }
  assert (At : startswith (123%N :: str "params}:RouteParams")
                 (123%N :: name ++ str ":string}}") = false).
  { cbn [startswith]. rewrite N.eqb_refl. cbn [andb].
    apply (brace_not_prefix_of_name (str "params") name (str "string}}")
             (str ":RouteParams") Hn eq_refl). }
  cbn [contains app str map list_ascii_of_string].
  cbn [contains] in Tail. cbn [app str map list_ascii_of_string] in Tail, At.
  rewrite At, Tail. reflexivity.
Qed.

Lemma skeleton_reversed (name : text) :
  identifier name = true ->
  rev (skeleton (signature_pattern name))
  = str "}}gnirts:" ++ rev name ++ rev (str "{params}:{params:{").
Proof.
  intros Hn. rewrite (signature_skeleton name Hn).
  now rewrite !rev_app_distr, <- app_assoc.
Qed.

Lemma signature_not_entered (name : text) :
  identifier name = true ->
  not_entered (signature_pattern name) route_params_sig = true.
Proof.
  intros Hn. unfold not_entered.
  rewrite (replacement_not_in_skeleton name Hn), andb_true_r.
  apply forallb_forall. intros k Hk. apply in_seq in Hk.
  unfold ends_with. rewrite (skeleton_reversed name Hn).
  do 24 (destruct k as [|k]; [try lia; reflexivity|]).
  exfalso. revert Hk. vm_compute. lia.
Qed.

End AnyLeftoverFacts.

(** X17: for every identifier name, after Step 2 the signature pattern
    matches nowhere in the text: no inline signature for that name is left,
    and the replacements do not make a new one. *)
Theorem no_signature_is_left_for_any_name (name content : text) :
  identifier name = true ->
  Lang.no_match (signature_pattern name) (replace_signature name content).
Proof.
  intros Hn. unfold replace_signature.
  apply (LeftoverFacts.sub_leaves_no_match (signature_pattern name)
           route_params_sig 123%N eq_refl).
  - intros t i. apply AnyLeftoverFacts.not_inside.
  - now apply AnyLeftoverFacts.signature_not_entered.
Qed.

Lemma no_signature_is_left_for_any_name_example :
  Lang.no_match (signature_pattern Examples.username)
    (replace_signature Examples.username Examples.users_handler).
Proof.
  apply (no_signature_is_left_for_any_name Examples.username
           Examples.users_handler).
  reflexivity.
Defined.

(* ================================================================= *)
(** ** Steps 3 and 4 on lines *)

(** X18: Step 3 changes nothing in a text that has no signature marker, and
    nothing in a text that has no [try {]: splitting, scanning and joining
    give the text back. *)
Theorem insert_await_needs_signature_and_try (name s : text) :
  Py.contains route_params_sig s = false \/ Py.contains try_open s = false ->
  insert_await name s = s.
Proof.
  intros [H|H].
  - now apply LoopFacts.insert_await_idle.
  - unfold insert_await.
    rewrite NoTryFacts.add_await_no_try; [apply PyFacts.join_split_nl|].
    apply forallb_forall. intros l Hl. apply negb_true_iff.
    apply not_true_is_false. intros Hc.
    apply PyFacts.contains_iff in Hc as (a & b & ->).
    apply LoopFacts.split_nl_infix in Hl as (x & y & ->).
    enough (Py.contains try_open (x ++ (a ++ try_open ++ b) ++ y) = true)
      by congruence.
    apply PyFacts.contains_iff. exists (x ++ a), (b ++ y).
    now rewrite <- !app_assoc.
Qed.

Lemma insert_await_needs_signature_and_try_example :
  insert_await Examples.id
    (replace_signature Examples.id Examples.plain_handler)
  = replace_signature Examples.id Examples.plain_handler.
Proof.
  apply (insert_await_needs_signature_and_try Examples.id
           (replace_signature Examples.id Examples.plain_handler)).
  right. vm_compute. reflexivity.
Defined.

(** X19: for an identifier name Step 4 works line by line: it neither joins
    nor splits lines, and the lines of its result are the rewritten lines of
    its input. *)
Theorem replace_references_line_by_line (name s : text) :
  identifier name = true ->
  Py.split_nl (replace_references name s)
  = map (replace_references name) (Py.split_nl s).
Proof.
  intros Hn. unfold replace_references.
  apply (LineFacts.split_nl_sub (reference_pattern name) name eq_refl).
  - now apply ExtraLineFacts.reference_no_nl.
  - now apply (NameFacts.name_without NL name Hn).
Qed.

Lemma replace_references_line_by_line_example :
  Py.split_nl (replace_references Examples.id Examples.plain_handler)
  = map (replace_references Examples.id)
      (Py.split_nl Examples.plain_handler).
Proof.
  apply (replace_references_line_by_line Examples.id Examples.plain_handler).
  reflexivity.
Defined.
